(** * The xDS client of grpc's xds balancer (balancer/xds/xds_client.go)

    A shallow embedding of [client.adsCallAttempt], [client.makeADSCall],
    [client.dial] and [client.close], with the properties of the stream
    attempt, of the retry loop and of the dial/close race.

    The client talks to three collaborators that are not part of the file:
    the ADS stream ([StreamAggregatedResources], [Send], [Recv]), the codec
    ([types.UnmarshalAny]) and the callbacks handed to [newXDSClient]
    ([newADS], [loseContact], [backoff]).  The stream is given as a script of
    the results its calls return, the codec is a parameter, the callbacks are
    fields of the client and act on a state of their own (the [Sink]).
    Every call to a collaborator is recorded as an [Event]. *)

From Stdlib Require Import List String ZArith Bool Lia.
From Stdlib.Strings Require Import Byte.
Import ListNotations.

Local Open Scope Z_scope.

(** ** Constants (lines 40-45) *)

Definition grpcHostname : string := "com.googleapis.trafficdirector.grpc_hostname".
Definition cdsType : string := "type.googleapis.com/envoy.api.v2.Cluster".
Definition edsType : string := "type.googleapis.com/envoy.api.v2.ClusterLoadAssignment".
Definition endpointRequired : string := "endpoints_required".

(** ** Messages *)

(** [types.Any]: a type URL and the encoded bytes. *)
Record Any : Type := mkAny {
  Any_TypeUrl : string;
  Any_Value : list byte
}.

(** What [types.UnmarshalAny] yields in [adsResp.Message]: the two message
    types the type switch of [adsCallAttempt] names, and any other registered
    message.  The payload stands for the decoded fields. *)
Inductive Message : Type :=
| Cluster (payload : list byte)
| ClusterLoadAssignment (payload : list byte)
| OtherMessage (typeUrl : string) (payload : list byte).

(** [types.Value], the two kinds the requests use. *)
Inductive Value : Type :=
| Value_StringValue (s : string)
| Value_BoolValue (b : bool).

(** [xdspb.DiscoveryRequest], the fields the client fills in. *)
Record DiscoveryRequest : Type := mkRequest {
  Node_Metadata_Fields : list (string * Value);
  ResourceNames : list string;
  TypeUrl : string
}.

(** [xdspb.DiscoveryResponse], the fields the client reads. *)
Record DiscoveryResponse : Type := mkResponse {
  GetTypeUrl : string;
  GetResources : list Any
}.

(** The result of one [st.Recv()]. *)
Inductive RecvResult : Type :=
| RecvOk (resp : DiscoveryResponse)
| RecvErr.

(** One ADS stream, as the results of the calls made on it.  [sendErrs] and
    [recvs] list the results of the successive [Send] and [Recv] calls
    ([true] in [sendErrs]: the call returned an error); a call past the end
    of its list has not returned. *)
Record StreamEnv : Type := mkStream {
  streamErr : bool;
  sendErrs : list bool;
  recvs : list RecvResult
}.

(** The environment of one iteration of the loop of [makeADSCall]: what the
    two [select] statements observe of [c.ctx.Done()], and the stream the
    attempt gets. *)
Record IterEnv : Type := mkIter {
  ctxDoneAtTop : bool;
  ctxDoneInBackoff : bool;
  stream : StreamEnv
}.

(** ** Events *)

Inductive Event : Type :=
| EvBackoffWait (retries : Z) (d : Z) (cancelled : bool)
    (* timer of [c.backoff.Backoff(retries)] = [d]; [cancelled]: ctx.Done won *)
| EvStream (err : bool)                           (* StreamAggregatedResources *)
| EvSend (req : DiscoveryRequest) (err : bool)    (* st.Send(req) *)
| EvRecv (resp : option DiscoveryResponse)        (* st.Recv(); None: error *)
| EvNewADS (m : Message) (err : bool)             (* c.newADS(c.ctx, m) *)
| EvAttemptEnd (firstRespReceived : bool) (retryCount : Z)
    (* adsCallAttempt returned; retryCount after lines 183-188 *)
| EvLoseContact.                                  (* c.loseContact(c.ctx) *)

(** [int] is 64 bits wide on the platforms the balancer is built for;
    [retryCount++] wraps around. *)
Definition int_wrap (z : Z) : Z := (z + 2 ^ 63) mod 2 ^ 64 - 2 ^ 63.

(** A function that has not returned is [Blocked] in one of its calls. *)
Inductive Outcome (A : Type) : Type :=
| Returned (a : A)
| Blocked.
Arguments Returned {A} a.
Arguments Blocked {A}.

Inductive LoopOutcome : Type :=
| Exited      (* makeADSCall returned *)
| Running.    (* still in the loop when the script ends *)

Section Client.

(** [types.UnmarshalAny]; [None] is a decoding error. *)
Variable UnmarshalAny : Any -> option Message.

(** The state the callbacks act on. *)
Variable Sink : Type.

(** [client], without the connection fields (see [DialClose] below).
    [newADS] returns [true] for a non-nil error; [backoff] is
    [c.backoff.Backoff], in nanoseconds. *)
Record client : Type := mkClient {
  balancerName : string;
  serviceName : string;
  enableCDS : bool;
  newADS : Message -> Sink -> bool * Sink;
  loseContact : Sink -> Sink;
  backoff : Z -> Z
}.

(** What a function did: its result, the callbacks' state, the calls made. *)
Record Run (A : Type) : Type := mkRun {
  result : A;
  sinkAfter : Sink;
  events : list Event
}.
Arguments mkRun {A} _ _ _.
Arguments result {A} _.
Arguments sinkAfter {A} _.
Arguments events {A} _.

Definition prepend {A} (evs : list Event) (r : Run A) : Run A :=
  mkRun (result r) (sinkAfter r) (evs ++ events r).

(** *** Requests (lines 126-157) *)

Definition newCDSRequest (c : client) : DiscoveryRequest :=
  {| Node_Metadata_Fields := [(grpcHostname, Value_StringValue (serviceName c))];
     ResourceNames := [];
     TypeUrl := cdsType |}.

Definition newEDSRequest (c : client) : DiscoveryRequest :=
  {| Node_Metadata_Fields := [(endpointRequired, Value_BoolValue (enableCDS c))];
     ResourceNames := [serviceName c];
     TypeUrl := edsType |}.

(** *** adsCallAttempt (lines 193-250) *)

(** The variables of the receive loop. *)
Record RecvState : Type := mkRecvState {
  expectCDS : bool;
  firstRespReceived : bool;
  sink : Sink
}.

Inductive RecvStep : Type :=
| Continue (s : RecvState) (evs : list Event)
| Return (firstRespReceived : bool) (k : Sink) (evs : list Event).

(** Lines 245-248: hand the message to [c.newADS]; an error returns,
    otherwise the loop goes on with [expectCDS] as the type switch left it. *)
Definition dispatch (c : client) (s : RecvState) (expectCDS' : bool)
    (resp : DiscoveryResponse) (m : Message) : RecvStep :=
  let (err, k') := newADS c m (sink s) in
  if err
  then Return (firstRespReceived s) k' [EvRecv (Some resp); EvNewADS m true]
  else Continue (mkRecvState expectCDS' (firstRespReceived s) k')
                [EvRecv (Some resp); EvNewADS m false].

(** Lines 214-248: one pass through the body of the receive loop, given
    what [st.Recv()] returned. *)
Definition recvIter (c : client) (s : RecvState) (r : RecvResult) : RecvStep :=
  match r with
  | RecvErr => Return (firstRespReceived s) (sink s) [EvRecv None]
  | RecvOk resp =>
      (* line 219: firstRespReceived = true *)
      let s := mkRecvState (expectCDS s) true (sink s) in
      match GetResources resp with
      | [] => (* len(resources) < 1 *)
          Return (firstRespReceived s) (sink s) [EvRecv (Some resp)]
      | r0 :: _ =>
          if (GetTypeUrl resp =? cdsType)%string && negb (enableCDS c)
          then Return (firstRespReceived s) (sink s) [EvRecv (Some resp)]
          else
            match UnmarshalAny r0 with
            | None => Return (firstRespReceived s) (sink s) [EvRecv (Some resp)]
            | Some m =>
                match m with
                | Cluster _ => dispatch c s false resp m
                | ClusterLoadAssignment _ =>
                    if expectCDS s
                    then Return (firstRespReceived s) (sink s) [EvRecv (Some resp)]
                    else dispatch c s (expectCDS s) resp m
                | OtherMessage _ _ => dispatch c s (expectCDS s) resp m
                end
            end
      end
  end.

(** Lines 213-249: the receive loop over the results of the [Recv] calls. *)
Fixpoint recvLoop (c : client) (s : RecvState) (script : list RecvResult)
    : Run (Outcome bool) :=
  match script with
  | [] => mkRun Blocked (sink s) []
  | r :: rest =>
      match recvIter c s r with
      | Return b k evs => mkRun (Returned b) k evs
      | Continue s' evs => prepend evs (recvLoop c s' rest)
      end
  end.

Inductive SendResult : Type :=
| SendOk (rest : list bool)
| SendFailed
| SendBlocked.

(** [st.Send]: the next result of the stream's send script. *)
Definition Send (errs : list bool) : SendResult :=
  match errs with
  | [] => SendBlocked
  | true :: _ => SendFailed
  | false :: rest => SendOk rest
  end.

(** Lines 208-249: send the EDS request, then receive. *)
Definition sendEDSAndReceive (c : client) (errs : list bool)
    (script : list RecvResult) (k : Sink) : Run (Outcome bool) :=
  match Send errs with
  | SendBlocked => mkRun Blocked k []
  | SendFailed => mkRun (Returned false) k [EvSend (newEDSRequest c) true]
  | SendOk _ =>
      prepend [EvSend (newEDSRequest c) false]
              (recvLoop c (mkRecvState (enableCDS c) false k) script)
  end.

Definition adsCallAttempt (c : client) (env : StreamEnv) (k : Sink)
    : Run (Outcome bool) :=
  if streamErr env then mkRun (Returned false) k [EvStream true]
  else
    prepend [EvStream false]
      (if enableCDS c then
         match Send (sendErrs env) with
         | SendBlocked => mkRun Blocked k []
         | SendFailed => mkRun (Returned false) k [EvSend (newCDSRequest c) true]
         | SendOk errs =>
             prepend [EvSend (newCDSRequest c) false]
                     (sendEDSAndReceive c errs (recvs env) k)
         end
       else sendEDSAndReceive c (sendErrs env) (recvs env) k).

(** *** makeADSCall (lines 159-191) *)

Inductive LoopStep : Type :=
| Next (retryCount : Z) (doRetry : bool) (k : Sink) (evs : list Event)
| Stop (o : LoopOutcome) (k : Sink) (evs : list Event).

(** Lines 182-189: the attempt, the update of the loop variables and the
    call of [c.loseContact]. *)
Definition attemptAndNotify (c : client) (retryCount : Z) (env : IterEnv)
    (k : Sink) : LoopStep :=
  let a := adsCallAttempt c (stream env) k in
  match result a with
  | Blocked => Stop Running (sinkAfter a) (events a)
  | Returned firstRespReceived =>
      let retryCount' := if firstRespReceived then 0 else retryCount in
      let doRetry' := if firstRespReceived then false else true in
      Next retryCount' doRetry' (loseContact c (sinkAfter a))
           (events a ++ [EvAttemptEnd firstRespReceived retryCount'; EvLoseContact])
  end.

Definition prependStep (evs : list Event) (st : LoopStep) : LoopStep :=
  match st with
  | Next rc dr k evs' => Next rc dr k (evs ++ evs')
  | Stop o k evs' => Stop o k (evs ++ evs')
  end.

(** Lines 165-189: one iteration of the loop. *)
Definition loopIter (c : client) (retryCount : Z) (doRetry : bool)
    (env : IterEnv) (k : Sink) : LoopStep :=
  if ctxDoneAtTop env then Stop Exited k []
  else if doRetry then
    if ctxDoneInBackoff env
    then Stop Exited k [EvBackoffWait retryCount (backoff c retryCount) true]
    else prependStep [EvBackoffWait retryCount (backoff c retryCount) false]
           (attemptAndNotify c (int_wrap (retryCount + 1)) env k)
  else attemptAndNotify c retryCount env k.

Fixpoint makeADSCallLoop (c : client) (retryCount : Z) (doRetry : bool)
    (envs : list IterEnv) (k : Sink) : Run LoopOutcome :=
  match envs with
  | [] => mkRun Running k []
  | env :: rest =>
      match loopIter c retryCount doRetry env k with
      | Stop o k' evs => mkRun o k' evs
      | Next rc dr k' evs => prepend evs (makeADSCallLoop c rc dr rest k')
      end
  end.

(** [retryCount := 0], [var doRetry bool], then the loop. *)
Definition makeADSCall (c : client) (envs : list IterEnv) (k : Sink)
    : Run LoopOutcome :=
  makeADSCallLoop c 0 false envs k.

End Client.

Arguments mkRun {Sink A} _ _ _.
Arguments result {Sink A} _.
Arguments sinkAfter {Sink A} _.
Arguments events {Sink A} _.
Arguments prepend {Sink A} _ _.
Arguments mkClient {Sink} _ _ _ _ _ _.
Arguments balancerName {Sink} _.
Arguments serviceName {Sink} _.
Arguments enableCDS {Sink} _.
Arguments newADS {Sink} _ _ _.
Arguments loseContact {Sink} _ _.
Arguments backoff {Sink} _ _.
Arguments newCDSRequest {Sink} _.
Arguments newEDSRequest {Sink} _.
Arguments mkRecvState {Sink} _ _ _.
Arguments expectCDS {Sink} _.
Arguments firstRespReceived {Sink} _.
Arguments sink {Sink} _.
Arguments Continue {Sink} _ _.
Arguments Return {Sink} _ _ _.
Arguments Next {Sink} _ _ _ _.
Arguments Stop {Sink} _ _ _.
Arguments dispatch {Sink} _ _ _ _ _.
Arguments recvIter _ {Sink} _ _ _.
Arguments recvLoop _ {Sink} _ _ _.
Arguments sendEDSAndReceive _ {Sink} _ _ _ _.
Arguments adsCallAttempt _ {Sink} _ _ _.
Arguments attemptAndNotify _ {Sink} _ _ _ _.
Arguments prependStep {Sink} _ _.
Arguments loopIter _ {Sink} _ _ _ _ _.
Arguments makeADSCallLoop _ {Sink} _ _ _ _ _.
Arguments makeADSCall _ {Sink} _ _ _.

(** ** Vocabulary of the statements *)

(** The calls an attempt makes between its first and its return. *)
Definition insideAttempt (e : Event) : bool :=
  match e with
  | EvSend _ _ | EvRecv _ | EvNewADS _ _ => true
  | _ => false
  end.

Section Vocabulary.

Variable UnmarshalAny : Any -> option Message.
Variable Sink : Type.

(** The message line 232 decodes: the first resource of the response. *)
Definition firstMessage (resp : DiscoveryResponse) : option Message :=
  match GetResources resp with
  | [] => None
  | r0 :: _ => UnmarshalAny r0
  end.

Definition decodesCluster (r : RecvResult) : bool :=
  match r with
  | RecvOk resp =>
      match firstMessage resp with
      | Some (Cluster _) => true
      | _ => false
      end
  | RecvErr => false
  end.

(** The loop has passed through all of [script] and is back at [st.Recv()]:
    the variables then, and the calls made on the way. *)
Fixpoint recvRun (c : client Sink) (s : RecvState Sink) (script : list RecvResult)
    : option (RecvState Sink * list Event) :=
  match script with
  | [] => Some (s, [])
  | r :: rest =>
      match recvIter UnmarshalAny c s r with
      | Return _ _ _ => None
      | Continue s' evs =>
          match recvRun c s' rest with
          | Some (s'', evs') => Some (s'', evs ++ evs')
          | None => None
          end
      end
  end.

(** The sends of lines 202-211 all returned without error. *)
Definition sendsOk (c : client Sink) (errs : list bool) : bool :=
  if enableCDS c
  then match errs with false :: false :: _ => true | _ => false end
  else match errs with false :: _ => true | _ => false end.

(** The calls of an attempt that reaches the receive loop. *)
Definition handshake (c : client Sink) : list Event :=
  EvStream false ::
  (if enableCDS c then [EvSend (newCDSRequest c) false] else []) ++
  [EvSend (newEDSRequest c) false].

(** The state in which the receive loop starts (line 212). *)
Definition recvInit (c : client Sink) (k : Sink) : RecvState Sink :=
  mkRecvState (enableCDS c) false k.

(** The wait that precedes an attempt, and [retryCount] after it. *)
Definition waitEvents (c : client Sink) (retryCount : Z) (doRetry : bool) : list Event :=
  if doRetry then [EvBackoffWait retryCount (backoff c retryCount) false] else [].

Definition afterWait (retryCount : Z) (doRetry : bool) : Z :=
  if doRetry then int_wrap (retryCount + 1) else retryCount.

(** The four ways through one iteration of the loop. *)
Inductive IterShape (c : client Sink) (rc : Z) (dr : bool) : LoopStep Sink -> Prop :=
| ShapeDone (k : Sink) :
    IterShape c rc dr (Stop Exited k [])
| ShapeCancelled (k : Sink) :
    dr = true ->
    IterShape c rc dr (Stop Exited k [EvBackoffWait rc (backoff c rc) true])
| ShapeBlocked (k : Sink) (e : bool) (inner : list Event) :
    forallb insideAttempt inner = true ->
    IterShape c rc dr (Stop Running k (waitEvents c rc dr ++ EvStream e :: inner))
| ShapeNext (k : Sink) (e : bool) (inner : list Event) (b : bool) :
    forallb insideAttempt inner = true ->
    IterShape c rc dr
      (Next (if b then 0 else afterWait rc dr) (negb b) k
            (waitEvents c rc dr ++ EvStream e :: inner ++
             [EvAttemptEnd b (if b then 0 else afterWait rc dr); EvLoseContact])).

End Vocabulary.

Arguments firstMessage _ _ : assert.
Arguments recvRun _ {Sink} _ _ _.
Arguments sendsOk {Sink} _ _.
Arguments handshake {Sink} _.
Arguments recvInit {Sink} _ _.
Arguments waitEvents {Sink} _ _ _.
Arguments IterShape {Sink} _ _ _ _.
Arguments ShapeDone {Sink} _ _ _ _.
Arguments ShapeCancelled {Sink} _ _ _ _ _.
Arguments ShapeBlocked {Sink} _ _ _ _ _ _ _.
Arguments ShapeNext {Sink} _ _ _ _ _ _ _ _.

(** An attempt reports a response only if it handed one to the consumer
    and the consumer accepted it. *)
Definition reportsOnlyDispatched {Sink} (a : Run Sink (Outcome bool)) : Prop :=
  result a = Returned true ->
  exists m, In (EvNewADS m false) (events a).




(** [retryCount] over the attempts of a trace: 0 after an attempt with a
    response, not below its previous value [prev] after one without. *)
Fixpoint retryDiscipline (prev : Z) (tr : list Event) : bool :=
  match tr with
  | [] => true
  | EvAttemptEnd b rc :: tr' =>
      (if b then rc =? 0 else prev <=? rc) && retryDiscipline rc tr'
  | _ :: tr' => retryDiscipline prev tr'
  end.

(** Where the loop of [makeADSCall] stands between two events. *)
Inductive LoopPhase : Type :=
| Idle          (* no attempt under way *)
| InAttempt     (* inside adsCallAttempt *)
| Ended.        (* adsCallAttempt has returned, loseContact not yet called *)

(** The order of the calls of the loop: an attempt starts only when none is
    under way, its calls lie between its start and its return, and
    [loseContact] is called right after every return of an attempt, once,
    and nowhere else.  A trace does not stop between the return of an attempt
    and the call of [loseContact]. *)
Fixpoint lostContactDiscipline (ph : LoopPhase) (tr : list Event) : bool :=
  match tr with
  | [] => match ph with Ended => false | _ => true end
  | EvBackoffWait _ _ _ :: tr' =>
      match ph with Idle => lostContactDiscipline Idle tr' | _ => false end
  | EvStream _ :: tr' =>
      match ph with Idle => lostContactDiscipline InAttempt tr' | _ => false end
  | EvAttemptEnd _ _ :: tr' =>
      match ph with InAttempt => lostContactDiscipline Ended tr' | _ => false end
  | EvLoseContact :: tr' =>
      match ph with Ended => lostContactDiscipline Idle tr' | _ => false end
  | _ :: tr' =>
      match ph with InAttempt => lostContactDiscipline InAttempt tr' | _ => false end
  end.

(** ** dial and close (lines 78-86 and 109-124)

    [run] calls [dial] on the task of the client while [close] may be called
    from another one.  Each task is the sequence of its statements; a
    statement is one atomic step and the scheduler picks the task that takes
    the next step.  The tasks share the context, the mutex [c.mu] and the
    field [c.cc]. *)

Module DialClose.

Inductive Task : Type := DialTask | CloseTask.

(** The statement [dial] is about to execute. *)
Inductive DialPC : Type :=
| DialContext     (* line 109: cc, err := grpc.DialContext(c.ctx, ...) *)
| DialFatal       (* line 113: grpclog.Fatalf, the process exits *)
| DialLock        (* line 115: c.mu.Lock() *)
| DialSelect      (* line 116: select on c.ctx.Done() *)
| DialCloseConn   (* line 118: cc.Close() *)
| DialStore       (* line 121: c.cc = cc *)
| DialUnlock      (* line 123: c.mu.Unlock() *)
| DialDone.

(** The statement [close] is about to execute. *)
Inductive ClosePC : Type :=
| CloseCancel     (* line 79: c.cancel() *)
| CloseLock       (* line 80: c.mu.Lock() *)
| CloseTest       (* line 81: if c.cc != nil *)
| CloseConn       (* line 82: c.cc.Close() *)
| CloseUnlock     (* line 84: c.mu.Unlock() *)
| CloseCleanup    (* line 85: c.cleanup() *)
| CloseDone.

(** [conn]: the ClientConn that [DialContext] made, as the number of
    [Close] calls it has received; [None] before it exists.  [c_cc] tells
    whether [c.cc] holds it (it is nil otherwise). *)
Record State : Type := mkState {
  dialPC : DialPC;
  closePC : ClosePC;
  ctxDone : bool;
  mu : option Task;
  c_cc : bool;
  conn : option nat;
  cleanups : nat
}.

Definition init : State :=
  mkState DialContext CloseCancel false None false None 0.

Definition callClose (cn : option nat) : option nat := option_map S cn.

(** One statement of [dial]; [None] when the task cannot move.  [dialOk]
    is the result of [grpc.DialContext]. *)
Definition stepDial (dialOk : bool) (s : State) : option State :=
  match dialPC s with
  | DialContext =>
      if dialOk
      then Some (mkState DialLock (closePC s) (ctxDone s) (mu s) (c_cc s)
                         (Some 0%nat) (cleanups s))
      else Some (mkState DialFatal (closePC s) (ctxDone s) (mu s) (c_cc s)
                         (conn s) (cleanups s))
  | DialFatal => None
  | DialLock =>
      match mu s with
      | None => Some (mkState DialSelect (closePC s) (ctxDone s) (Some DialTask)
                              (c_cc s) (conn s) (cleanups s))
      | Some _ => None
      end
  | DialSelect =>
      Some (mkState (if ctxDone s then DialCloseConn else DialStore)
                    (closePC s) (ctxDone s) (mu s) (c_cc s) (conn s) (cleanups s))
  | DialCloseConn =>
      Some (mkState DialUnlock (closePC s) (ctxDone s) (mu s) (c_cc s)
                    (callClose (conn s)) (cleanups s))
  | DialStore =>
      Some (mkState DialUnlock (closePC s) (ctxDone s) (mu s) true
                    (conn s) (cleanups s))
  | DialUnlock =>
      Some (mkState DialDone (closePC s) (ctxDone s) None (c_cc s)
                    (conn s) (cleanups s))
  | DialDone => None
  end.

(** One statement of [close]; nothing runs once [Fatalf] has ended the
    process. *)
Definition stepClose (s : State) : option State :=
  match dialPC s with
  | DialFatal => None
  | _ =>
    match closePC s with
    | CloseCancel =>
        Some (mkState (dialPC s) CloseLock true (mu s) (c_cc s) (conn s)
                      (cleanups s))
    | CloseLock =>
        match mu s with
        | None => Some (mkState (dialPC s) CloseTest (ctxDone s) (Some CloseTask)
                                (c_cc s) (conn s) (cleanups s))
        | Some _ => None
        end
    | CloseTest =>
        Some (mkState (dialPC s) (if c_cc s then CloseConn else CloseUnlock)
                      (ctxDone s) (mu s) (c_cc s) (conn s) (cleanups s))
    | CloseConn =>
        Some (mkState (dialPC s) CloseUnlock (ctxDone s) (mu s) (c_cc s)
                      (callClose (conn s)) (cleanups s))
    | CloseUnlock =>
        Some (mkState (dialPC s) CloseCleanup (ctxDone s) None (c_cc s)
                      (conn s) (cleanups s))
    | CloseCleanup =>
        Some (mkState (dialPC s) CloseDone (ctxDone s) (mu s) (c_cc s)
                      (conn s) (S (cleanups s)))
    | CloseDone => None
    end
  end.

Definition step (dialOk : bool) (t : Task) (s : State) : option State :=
  match t with
  | DialTask => stepDial dialOk s
  | CloseTask => stepClose s
  end.

(** The state after a schedule; a task picked while it cannot move leaves
    the state as it is. *)
Fixpoint run (dialOk : bool) (sched : list Task) (s : State) : State :=
  match sched with
  | [] => s
  | t :: rest =>
      run dialOk rest (match step dialOk t s with Some s' => s' | None => s end)
  end.

Definition inCriticalDial (p : DialPC) : bool :=
  match p with
  | DialSelect | DialCloseConn | DialStore | DialUnlock => true
  | _ => false
  end.

Definition inCriticalClose (p : ClosePC) : bool :=
  match p with
  | CloseTest | CloseConn | CloseUnlock => true
  | _ => false
  end.

Definition pastCloseTest (p : ClosePC) : bool :=
  match p with
  | CloseUnlock | CloseCleanup | CloseDone => true
  | _ => false
  end.

Definition eqTask (a b : option Task) : bool :=
  match a, b with
  | None, None => true
  | Some DialTask, Some DialTask => true
  | Some CloseTask, Some CloseTask => true
  | _, _ => false
  end.

Definition eqConn (a b : option nat) : bool :=
  match a, b with
  | None, None => true
  | Some n, Some m => Nat.eqb n m
  | _, _ => false
  end.

(** What holds of the shared state at every point of every schedule. *)
Definition inv (s : State) : bool :=
  (* the mutex is held by the task inside its critical section *)
  negb (inCriticalDial (dialPC s) && inCriticalClose (closePC s)) &&
  eqTask (mu s)
    (if inCriticalDial (dialPC s) then Some DialTask
     else if inCriticalClose (closePC s) then Some CloseTask else None) &&
  (* the context is done once close has cancelled it *)
  Bool.eqb (ctxDone s)
    (match closePC s with CloseCancel => false | _ => true end) &&
  (* close calls Close only on a stored connection *)
  (match closePC s with CloseConn => c_cc s | _ => true end) &&
  (* the connection and the field, by the progress of dial *)
  match dialPC s with
  | DialContext | DialFatal => eqConn (conn s) None && negb (c_cc s)
  | DialLock | DialSelect => eqConn (conn s) (Some 0%nat) && negb (c_cc s)
  | DialCloseConn => eqConn (conn s) (Some 0%nat) && negb (c_cc s) && ctxDone s
  | DialStore =>
      eqConn (conn s) (Some 0%nat) && negb (c_cc s) &&
      match closePC s with CloseCancel | CloseLock => true | _ => false end
  | DialUnlock | DialDone =>
      if c_cc s
      then eqConn (conn s) (Some (if pastCloseTest (closePC s) then 1 else 0)%nat)
      else eqConn (conn s) (Some 1%nat) && ctxDone s
  end.

End DialClose.

(** ** A concrete client

    The codec reads the type URL of the resource; the consumer keeps the
    messages it is given and refuses those with an empty payload; the
    backoff doubles from one second up to 120 seconds. *)

Definition sampleUnmarshal (a : Any) : option Message :=
  if (Any_TypeUrl a =? cdsType)%string then Some (Cluster (Any_Value a))
  else if (Any_TypeUrl a =? edsType)%string
       then Some (ClusterLoadAssignment (Any_Value a))
  else if (Any_TypeUrl a =? "")%string then None
  else Some (OtherMessage (Any_TypeUrl a) (Any_Value a)).

Definition payloadOf (m : Message) : list byte :=
  match m with
  | Cluster p | ClusterLoadAssignment p | OtherMessage _ p => p
  end.

Definition sampleClient (enable : bool) : client (list Message) :=
  {| balancerName := "traffic-director";
     serviceName := "backend";
     enableCDS := enable;
     newADS := fun m k =>
       match payloadOf m with
       | [] => (true, k)
       | _ => (false, k ++ [m])
       end;
     loseContact := fun k => k;
     backoff := fun n => Z.min (2 ^ n * 1000000000) 120000000000 |}.

Definition cdsResponse : DiscoveryResponse :=
  {| GetTypeUrl := cdsType; GetResources := [mkAny cdsType [x01]] |}.

Definition edsResponse : DiscoveryResponse :=
  {| GetTypeUrl := edsType; GetResources := [mkAny edsType [x02]] |}.

Definition listenerType : string := "type.googleapis.com/envoy.api.v2.Listener".

Definition listenerResponse : DiscoveryResponse :=
  {| GetTypeUrl := listenerType; GetResources := [mkAny listenerType [x03]] |}.

Definition emptyResponse : DiscoveryResponse :=
  {| GetTypeUrl := edsType; GetResources := [] |}.

Definition goodStream (script : list RecvResult) : StreamEnv :=
  {| streamErr := false; sendErrs := [false; false]; recvs := script |}.

(** Five iterations: an attempt that gets an EDS response before any CDS
    response, one whose stream does not open, one whose EDS request cannot
    be sent, one that gets a CDS and an EDS response before the stream
    breaks, and one that waits for a response. *)
Definition sampleRun : list IterEnv :=
  [mkIter false false (goodStream [RecvOk edsResponse]);
   mkIter false false (mkStream true [] []);
   mkIter false false (mkStream false [false; true] []);
   mkIter false false (goodStream [RecvOk cdsResponse; RecvOk edsResponse; RecvErr]);
   mkIter false false (goodStream [])].


(** [close] cancels while [dial] is between [DialContext] and the lock. *)
Definition cancelDuringDial : list DialClose.Task :=
  [DialClose.DialTask; DialClose.CloseTask; DialClose.DialTask].

Definition cancelDuringDialToEnd : list DialClose.Task :=
  cancelDuringDial ++
  [DialClose.DialTask; DialClose.CloseTask; DialClose.DialTask;
   DialClose.DialTask; DialClose.CloseTask; DialClose.CloseTask;
   DialClose.CloseTask; DialClose.CloseTask; DialClose.CloseTask].

(** ** Further vocabulary *)

(** The messages handed to [c.newADS], in the order of the calls. *)
Fixpoint dispatched (tr : list Event) : list Message :=
  match tr with
  | [] => []
  | EvNewADS m _ :: tr' => m :: dispatched tr'
  | _ :: tr' => dispatched tr'
  end.

(** The requests passed to [st.Send], in the order of the calls. *)
Fixpoint requests (tr : list Event) : list DiscoveryRequest :=
  match tr with
  | [] => []
  | EvSend req _ :: tr' => req :: requests tr'
  | _ :: tr' => requests tr'
  end.

Definition isWait (e : Event) : bool :=
  match e with
  | EvBackoffWait _ _ _ => true
  | _ => false
  end.

(** Within each attempt a ClusterLoadAssignment reaches the consumer only
    after the consumer has accepted a Cluster.  [seen]: a Cluster was
    accepted in the attempt under way; a new attempt starts without. *)
Fixpoint edsAfterCds (seen : bool) (tr : list Event) : bool :=
  match tr with
  | [] => true
  | EvStream _ :: tr' => edsAfterCds false tr'
  | EvAttemptEnd _ _ :: tr' => edsAfterCds false tr'
  | EvNewADS (Cluster _) err :: tr' => edsAfterCds (negb err) tr'
  | EvNewADS (ClusterLoadAssignment _) _ :: tr' => seen && edsAfterCds seen tr'
  | _ :: tr' => edsAfterCds seen tr'
  end.

(** The waits of a trace count up: each wait is for the retry count [next],
    one more than the wait before it, from 0 again after an attempt with a
    response. *)
Fixpoint backoffEscalates (next : Z) (tr : list Event) : bool :=
  match tr with
  | [] => true
  | EvBackoffWait n _ _ :: tr' => (n =? next) && backoffEscalates (next + 1) tr'
  | EvAttemptEnd true _ :: tr' => backoffEscalates 0 tr'
  | _ :: tr' => backoffEscalates next tr'
  end.

(** A response cut down to its first resource. *)
Definition firstOnly (resp : DiscoveryResponse) : DiscoveryResponse :=
  {| GetTypeUrl := GetTypeUrl resp;
     GetResources := firstn 1 (GetResources resp) |}.

Definition firstOnlyResult (r : RecvResult) : RecvResult :=
  match r with
  | RecvOk resp => RecvOk (firstOnly resp)
  | RecvErr => RecvErr
  end.

Definition firstOnlyStream (env : StreamEnv) : StreamEnv :=
  {| streamErr := streamErr env;
     sendErrs := sendErrs env;
     recvs := map firstOnlyResult (recvs env) |}.

(** Neither [select] of the iteration finds the context done. *)
Definition notCancelled (env : IterEnv) : bool :=
  negb (ctxDoneAtTop env) && negb (ctxDoneInBackoff env).

Section MoreVocabulary.

Variable UnmarshalAny : Any -> option Message.
Variable Sink : Type.

(** What line 232 makes of the result of a [Recv]. *)
Definition decoded (r : RecvResult) : option Message :=
  match r with
  | RecvOk resp => firstMessage UnmarshalAny resp
  | RecvErr => None
  end.

(** The requests of lines 202-211, in the order of the sends. *)
Definition handshakeRequests (c : client Sink) : list DiscoveryRequest :=
  if enableCDS c then [newCDSRequest c; newEDSRequest c] else [newEDSRequest c].

(** The stream of the iteration opens, takes the requests and answers with
    a response. *)
Definition answers (c : client Sink) (env : IterEnv) : bool :=
  negb (streamErr (stream env)) &&
  sendsOk c (sendErrs (stream env)) &&
  match recvs (stream env) with
  | RecvOk _ :: _ => true
  | _ => false
  end.

End MoreVocabulary.

Arguments handshakeRequests {Sink} _.
Arguments answers {Sink} _ _.

(** ** The dial options (lines 89-107)

    [credentials.TransportCredentials], the dialer and the channelz switch
    belong to grpc; the credentials and the dialer are abstract, and
    [OverrideServerName] returns the credentials with the name overridden,
    or [None] for an error. *)

Section DialOptions.

Variable Creds : Type.
Variable DialerFn : Type.
Variable OverrideServerName : Creds -> string -> option Creds.
Variable PickFirstBalancerName : string.

(** [grpc.DialOption], the five the client builds. *)
Inductive DialOption : Type :=
| WithTransportCredentials (creds : Creds)
| WithInsecure
| WithContextDialer (d : DialerFn)
| WithBalancerName (name : string)
| WithChannelzParentID (id : Z).

(** [balancer.BuildOptions], the fields [dial] reads. *)
Record BuildOptions : Type := mkBuildOptions {
  DialCreds : option Creds;
  Dialer : option DialerFn;
  ChannelzParentID : Z
}.

(** Lines 89-107; [channelzIsOn] is [channelz.IsOn()]. *)
Definition dialOptions (opts : BuildOptions) (balancerName : string)
    (channelzIsOn : bool) : list DialOption :=
  let dopts := [] in
  let dopts :=
    match DialCreds opts with
    | Some creds =>
        match OverrideServerName creds balancerName with
        | Some creds' => dopts ++ [WithTransportCredentials creds']
        | None => dopts ++ [WithInsecure]
        end
    | None => dopts ++ [WithInsecure]
    end in
  let dopts :=
    match Dialer opts with
    | Some d => dopts ++ [WithContextDialer d]
    | None => dopts
    end in
  let dopts := dopts ++ [WithBalancerName PickFirstBalancerName] in
  if channelzIsOn then dopts ++ [WithChannelzParentID (ChannelzParentID opts)]
  else dopts.

Definition isSecurity (o : DialOption) : bool :=
  match o with
  | WithTransportCredentials _ | WithInsecure => true
  | _ => false
  end.

Definition isBalancer (o : DialOption) : bool :=
  match o with
  | WithBalancerName _ => true
  | _ => false
  end.

End DialOptions.

Arguments WithTransportCredentials {Creds DialerFn} _.
Arguments WithInsecure {Creds DialerFn}.
Arguments WithContextDialer {Creds DialerFn} _.
Arguments WithBalancerName {Creds DialerFn} _.
Arguments WithChannelzParentID {Creds DialerFn} _.
Arguments mkBuildOptions {Creds DialerFn} _ _ _.
Arguments DialCreds {Creds DialerFn} _.
Arguments Dialer {Creds DialerFn} _.
Arguments ChannelzParentID {Creds DialerFn} _.
Arguments dialOptions {Creds DialerFn} _ _ _ _ _.
Arguments isSecurity {Creds DialerFn} _.
Arguments isBalancer {Creds DialerFn} _.

(** ** More on dial and close *)

(** Both calls have returned. *)
Definition bothDone (s : DialClose.State) : bool :=
  match DialClose.dialPC s, DialClose.closePC s with
  | DialClose.DialDone, DialClose.CloseDone => true
  | _, _ => false
  end.

(** [Fatalf] has ended the process. *)
Definition fatal (s : DialClose.State) : bool :=
  match DialClose.dialPC s with
  | DialClose.DialFatal => true
  | _ => false
  end.

(** [c.cleanup()] has been called once if [close] has returned, and not at
    all before. *)
Definition cleanupOnce (s : DialClose.State) : bool :=
  Nat.eqb (DialClose.cleanups s)
    (match DialClose.closePC s with DialClose.CloseDone => 1 | _ => 0 end)%nat.

(** [dial] has no connection: it has not yet called [DialContext], or the
    call failed. *)
Definition withoutConn (s : DialClose.State) : bool :=
  match DialClose.dialPC s with
  | DialClose.DialContext | DialClose.DialFatal => true
  | _ => false
  end.

(** Let [close] run as far as it can, then [dial], then [close] again. *)
Definition runToEnd : list DialClose.Task :=
  repeat DialClose.CloseTask 6 ++ repeat DialClose.DialTask 6 ++
  repeat DialClose.CloseTask 6.


(** ** More concrete inputs *)

(** A response whose resource the codec cannot decode, one whose message
    the consumer refuses, and one of type [edsType] that carries a Cluster. *)
Definition brokenResponse : DiscoveryResponse :=
  {| GetTypeUrl := edsType; GetResources := [mkAny "" [x04]] |}.

Definition refusedResponse : DiscoveryResponse :=
  {| GetTypeUrl := edsType; GetResources := [mkAny edsType []] |}.

Definition mislabelledResponse : DiscoveryResponse :=
  {| GetTypeUrl := edsType; GetResources := [mkAny cdsType [x05]] |}.

(** Two iterations whose streams answer, with responses of no use. *)
Definition answeringRun : list IterEnv :=
  [mkIter false false (goodStream [RecvOk emptyResponse]);
   mkIter false false (goodStream [RecvOk brokenResponse])].


(** [dial] runs to its end before [close] starts. *)
Definition dialFirst : list DialClose.Task :=
  repeat DialClose.DialTask 5.

(** ** The callbacks along a trace *)

(** The state of the callbacks after the calls a trace records, from the
    state [k]: [c.newADS] applied to the message of each [EvNewADS],
    [c.loseContact] applied at each [EvLoseContact], nothing else. *)
Fixpoint replay {Sink : Type} (c : client Sink) (k : Sink) (tr : list Event)
    : Sink :=
  match tr with
  | [] => k
  | EvNewADS m _ :: tr' => replay c (snd (newADS c m k)) tr'
  | EvLoseContact :: tr' => replay c (loseContact c k) tr'
  | _ :: tr' => replay c k tr'
  end.

(** A client whose [loseContact] leaves a mark in the state of the
    callbacks. *)
Definition lostContactMark : Message := OtherMessage "loseContact" [].

Definition markingClient (enable : bool) : client (list Message) :=
  {| balancerName := "traffic-director";
     serviceName := "backend";
     enableCDS := enable;
     newADS := fun m k => (false, k ++ [m]);
     loseContact := fun k => k ++ [lostContactMark];
     backoff := fun n => Z.min (2 ^ n * 1000000000) 120000000000 |}.

(** An iteration whose stream does not open. *)
Definition deadStream : IterEnv := mkIter false false (mkStream true [] []).

(** * Properties *)

(** ** The stream attempt *)

Section AttemptFacts.

Variable UnmarshalAny : Any -> option Message.
Variable Sink : Type.
Implicit Types (c : client Sink) (s : RecvState Sink) (k : Sink).

Local Abbreviation recvIter := (recvIter UnmarshalAny).
Local Abbreviation recvLoop := (recvLoop UnmarshalAny).
Local Abbreviation recvRun := (recvRun UnmarshalAny).
Local Abbreviation adsCallAttempt := (adsCallAttempt UnmarshalAny).
Local Abbreviation firstMessage := (firstMessage UnmarshalAny).
Local Abbreviation decodesCluster := (decodesCluster UnmarshalAny).

Lemma prepend_nil {A} (r : Run Sink A) : prepend [] r = r.
Proof. destruct r; reflexivity. Qed.

Lemma prepend_prepend {A} (e1 e2 : list Event) (r : Run Sink A) :
  prepend e1 (prepend e2 r) = prepend (e1 ++ e2) r.
Proof. unfold prepend; simpl. now rewrite app_assoc. Qed.

(** What [dispatch] can do: the consumer is called, and the loop goes on
    exactly when it reports no error. *)
Lemma dispatch_cases c s e' resp m :
  dispatch c s e' resp m =
    (if fst (newADS c m (sink s))
     then Return (firstRespReceived s) (snd (newADS c m (sink s)))
                 [EvRecv (Some resp); EvNewADS m true]
     else Continue (mkRecvState e' (firstRespReceived s) (snd (newADS c m (sink s))))
                   [EvRecv (Some resp); EvNewADS m false]).
Proof. unfold dispatch. now destruct (newADS c m (sink s)). Qed.

(** The loop over [pre ++ rest], when it passes through [pre]. *)
Lemma recvLoop_app c pre : forall s s' evs rest,
  recvRun c s pre = Some (s', evs) ->
  recvLoop c s (pre ++ rest) = prepend evs (recvLoop c s' rest).
Proof.
  induction pre as [|r pre IH]; intros s s' evs rest H; simpl in *.
  - injection H as <- <-. now rewrite prepend_nil.
  - destruct (recvIter c s r) as [s1 e1|]; [|discriminate].
    destruct (recvRun c s1 pre) as [[s2 e2]|] eqn:E; [|discriminate].
    injection H as <- <-.
    rewrite (IH _ _ _ rest E). apply prepend_prepend.
Qed.

(** An attempt whose stream opens and whose sends succeed is its handshake
    followed by the receive loop. *)
Lemma adsCallAttempt_receiving c env k :
  streamErr env = false ->
  sendsOk c (sendErrs env) = true ->
  adsCallAttempt c env k =
    prepend (handshake c) (recvLoop c (recvInit c k) (recvs env)).
Proof.
  intros Hs Hok.
  unfold adsCallAttempt, sendEDSAndReceive, sendsOk, handshake, recvInit in *.
  rewrite Hs. destruct (enableCDS c).
  - destruct (sendErrs env) as [|[] [|[] errs]]; try discriminate.
    reflexivity.
  - destruct (sendErrs env) as [|[] errs]; try discriminate.
    reflexivity.
Qed.

(** One pass of the loop never turns [expectCDS] back on, and leaves
    [firstRespReceived] set. *)
Lemma recvIter_continue c s r s' evs :
  recvIter c s r = Continue s' evs ->
  (expectCDS s = false -> expectCDS s' = false) /\
  (decodesCluster r = false -> expectCDS s' = expectCDS s) /\
  (decodesCluster r = true -> expectCDS s' = false) /\
  firstRespReceived s' = true.
Proof.
  unfold recvIter, decodesCluster, firstMessage.
  destruct r as [resp|]; [|discriminate].
  destruct (GetResources resp) as [|r0 rs]; [discriminate|].
  destruct (_ && _); [discriminate|].
  destruct (UnmarshalAny r0) as [[p|p|u p]|]; [| | |discriminate];
    cbn [expectCDS firstRespReceived sink];
    try (destruct (expectCDS s) eqn:E; [discriminate|]);
    rewrite dispatch_cases;
    destruct (fst (newADS c _ _)); try discriminate;
    intros [= <- <-]; cbn; repeat split; congruence.
Qed.

Lemma recvRun_expectCDS_false c script : forall s s' evs,
  recvRun c s script = Some (s', evs) ->
  expectCDS s = false -> expectCDS s' = false.
Proof.
  induction script as [|r script IH]; intros s s' evs H E; simpl in H.
  - now injection H as <- <-.
  - destruct (recvIter c s r) as [s1 e1|] eqn:It; [|discriminate].
    destruct (recvRun c s1 script) as [[s2 e2]|] eqn:R; [|discriminate].
    injection H as <- <-.
    apply (IH _ _ _ R).
    destruct (recvIter_continue _ _ _ _ _ It) as [M _]. exact (M E).
Qed.

Lemma recvRun_no_cluster c script : forall s s' evs,
  recvRun c s script = Some (s', evs) ->
  forallb (fun r => negb (decodesCluster r)) script = true ->
  expectCDS s' = expectCDS s.
Proof.
  induction script as [|r script IH]; intros s s' evs H F; simpl in *.
  - now injection H as <- <-.
  - destruct (recvIter c s r) as [s1 e1|] eqn:It; [|discriminate].
    destruct (recvRun c s1 script) as [[s2 e2]|] eqn:R; [|discriminate].
    injection H as <- <-.
    apply andb_prop in F as [F1 F2].
    rewrite (IH _ _ _ R F2).
    destruct (recvIter_continue _ _ _ _ _ It) as (_ & M & _).
    apply M. now destruct (decodesCluster r).
Qed.

(** While [expectCDS] is set no ClusterLoadAssignment reaches the consumer. *)
Lemma recvRun_awaiting_no_eds c script : forall s s' evs,
  recvRun c s script = Some (s', evs) ->
  expectCDS s' = true ->
  forall p e, ~ In (EvNewADS (ClusterLoadAssignment p) e) evs.
Proof.
  induction script as [|r script IH]; intros s s' evs H E p e; simpl in H.
  - injection H as <- <-. intros [].
  - destruct (recvIter c s r) as [s1 e1|] eqn:It; [|discriminate].
    destruct (recvRun c s1 script) as [[s2 e2]|] eqn:R; [|discriminate].
    injection H as <- <-.
    intros Hin. apply in_app_or in Hin as [Hin|Hin].
    + assert (E1 : expectCDS s1 = true).
      { destruct (expectCDS s1) eqn:E1; [reflexivity|].
        rewrite (recvRun_expectCDS_false _ _ _ _ _ R E1) in E. discriminate. }
      assert (E0 : expectCDS s = true).
      { destruct (expectCDS s) eqn:E0; [reflexivity|].
        destruct (recvIter_continue _ _ _ _ _ It) as [M _].
        rewrite (M E0) in E1. discriminate. }
      revert It Hin. unfold recvIter.
      destruct r as [resp|]; [|discriminate].
      destruct (GetResources resp) as [|r0 rs]; [discriminate|].
      destruct (_ && _); [discriminate|].
      destruct (UnmarshalAny r0) as [[q|q|u q]|]; [| | |discriminate];
        cbn [expectCDS firstRespReceived sink];
        try (rewrite E0; discriminate);
        rewrite dispatch_cases;
        destruct (fst (newADS c _ _)); try discriminate;
        intros [= <- <-]; cbn; intros [H|[H|[]]]; discriminate.
    + exact (IH _ _ _ R E p e Hin).
Qed.

Lemma recvRun_cluster c script : forall s s' evs,
  recvRun c s script = Some (s', evs) ->
  existsb decodesCluster script = true ->
  expectCDS s' = false.
Proof.
  induction script as [|r script IH]; intros s s' evs H X; simpl in *.
  - discriminate.
  - destruct (recvIter c s r) as [s1 e1|] eqn:It; [|discriminate].
    destruct (recvRun c s1 script) as [[s2 e2]|] eqn:R; [|discriminate].
    injection H as <- <-.
    destruct (decodesCluster r) eqn:D; simpl in X.
    + apply (recvRun_expectCDS_false _ _ _ _ _ R).
      destruct (recvIter_continue _ _ _ _ _ It) as (_ & _ & M & _).
      exact (M D).
    + exact (IH _ _ _ R X).
Qed.

(** A pass that got a response logs it, and reports it if it returns. *)
Lemma recvIter_response c s resp :
  match recvIter c s (RecvOk resp) with
  | Return b _ evs => b = true /\ In (EvRecv (Some resp)) evs
  | Continue s' evs => firstRespReceived s' = true /\ In (EvRecv (Some resp)) evs
  end.
Proof.
  unfold recvIter.
  destruct (GetResources resp) as [|r0 rs]; [now split; [|left]|].
  destruct (_ && _); [now split; [|left]|].
  destruct (UnmarshalAny r0) as [[p|p|u p]|]; [| | |now split; [|left]];
    cbn [expectCDS firstRespReceived sink];
    try (destruct (expectCDS s); [now split; [|left]|]);
    rewrite dispatch_cases; destruct (fst (newADS c _ _));
    now split; [|left].
Qed.

Lemma recvLoop_reports c script : forall s b,
  result (recvLoop c s script) = Returned b ->
  (b = true <->
   firstRespReceived s = true \/
   exists resp, In (EvRecv (Some resp)) (events (recvLoop c s script))).
Proof.
  induction script as [|r script IH]; intros s b H; simpl in *.
  - discriminate.
  - destruct r as [resp|].
    + pose proof (recvIter_response c s resp) as P.
      destruct (recvIter c s (RecvOk resp)) as [s1 e1|b1 k1 e1];
        destruct P as [P1 P2]; simpl in *.
      * specialize (IH s1 b H). split; intros _.
        -- right. exists resp. apply in_or_app. now left.
        -- apply IH. now left.
      * injection H as <-. split; intros _; [|assumption].
        right. now exists resp.
    + simpl in *. injection H as <-. split.
      * now left.
      * intros [F|[resp [F|[]]]]; [assumption|discriminate].
Qed.

(** The shape of the calls of an attempt: it opens the stream, then only
    sends, receives and hands messages to the consumer. *)
Lemma recvLoop_events c script : forall s,
  forallb insideAttempt (events (recvLoop c s script)) = true.
Proof.
  induction script as [|r script IH]; intros s; simpl; [reflexivity|].
  assert (P : match recvIter c s r with
              | Return _ _ evs | Continue _ evs => forallb insideAttempt evs = true
              end).
  { unfold recvIter. destruct r as [resp|]; [|reflexivity].
    destruct (GetResources resp) as [|r0 rs]; [reflexivity|].
    destruct (_ && _); [reflexivity|].
    destruct (UnmarshalAny r0) as [[p|p|u p]|]; [| | |reflexivity];
      cbn [expectCDS firstRespReceived sink];
      try (destruct (expectCDS s); [reflexivity|]);
      rewrite dispatch_cases; now destruct (fst (newADS c _ _)). }
  destruct (recvIter c s r) as [s1 e1|b1 k1 e1]; simpl; [|assumption].
  rewrite forallb_app, P. apply IH.
Qed.

Lemma adsCallAttempt_events c env k :
  exists e inner,
    events (adsCallAttempt c env k) = EvStream e :: inner /\
    forallb insideAttempt inner = true.
Proof.
  unfold adsCallAttempt, sendEDSAndReceive.
  destruct (streamErr env); [now exists true, []|].
  exists false. eexists. split; [reflexivity|].
  destruct (enableCDS c); simpl.
  - destruct (sendErrs env) as [|[] [|[] errs]]; simpl; try reflexivity.
    apply recvLoop_events.
  - destruct (sendErrs env) as [|[] errs]; simpl; try reflexivity.
    apply recvLoop_events.
Qed.

(** An attempt that does not reach the receive loop reports no response
    and receives nothing. *)
Lemma adsCallAttempt_cases c env k :
  adsCallAttempt c env k =
    prepend (handshake c) (recvLoop c (recvInit c k) (recvs env)) \/
  (result (adsCallAttempt c env k) <> Returned true /\
   forall r, ~ In (EvRecv r) (events (adsCallAttempt c env k))).
Proof.
  destruct (streamErr env) eqn:Hs.
  - right. unfold adsCallAttempt. rewrite Hs. simpl. split; [discriminate|].
    intros r [H|[]]; discriminate.
  - destruct (sendsOk c (sendErrs env)) eqn:Hok.
    + left. now apply adsCallAttempt_receiving.
    + right. revert Hok.
      unfold adsCallAttempt, sendEDSAndReceive, sendsOk. rewrite Hs.
      destruct (enableCDS c).
      * destruct (sendErrs env) as [|[] [|[] errs]]; try discriminate;
          intros _; simpl; (split; [discriminate|]);
          intros r H; simpl in H; intuition discriminate.
      * destruct (sendErrs env) as [|[] errs]; try discriminate;
          intros _; simpl; (split; [discriminate|]);
          intros r H; simpl in H; intuition discriminate.
Qed.

Lemma handshake_no_recv c r : ~ In (EvRecv r) (handshake c).
Proof.
  unfold handshake. destruct (enableCDS c); simpl; intuition discriminate.
Qed.

Lemma handshake_no_newADS c m e : ~ In (EvNewADS m e) (handshake c).
Proof.
  unfold handshake. destruct (enableCDS c); simpl; intuition discriminate.
Qed.

(** C1.  In an attempt of a client with [enableCDS] set, let a response
    arrive whose first resource decodes to a ClusterLoadAssignment while
    the loop is still receiving and no earlier response of the attempt
    decoded to a Cluster.  Then [expectCDS] is still set, the attempt
    returns at that response without calling [newADS] on it, and no
    ClusterLoadAssignment has reached [newADS] in the whole attempt. *)
Theorem eds_before_cds_ends_attempt c env k pre resp rest s evs p :
  enableCDS c = true ->
  streamErr env = false ->
  sendsOk c (sendErrs env) = true ->
  recvs env = pre ++ RecvOk resp :: rest ->
  recvRun c (recvInit c k) pre = Some (s, evs) ->
  forallb (fun r => negb (decodesCluster r)) pre = true ->
  firstMessage resp = Some (ClusterLoadAssignment p) ->
  expectCDS s = true /\
  adsCallAttempt c env k =
    mkRun (Returned true) (sink s)
          (handshake c ++ evs ++ [EvRecv (Some resp)]) /\
  forall q e,
    ~ In (EvNewADS (ClusterLoadAssignment q) e)
         (events (adsCallAttempt c env k)).
Proof.
  intros Hc Hs Hok Hr Hrun Hpre Hm.
  assert (E : expectCDS s = true).
  { rewrite (recvRun_no_cluster _ _ _ _ _ Hrun Hpre). exact Hc. }
  assert (A : adsCallAttempt c env k =
              mkRun (Returned true) (sink s)
                    (handshake c ++ evs ++ [EvRecv (Some resp)])).
  { rewrite (adsCallAttempt_receiving _ _ _ Hs Hok), Hr.
    rewrite (recvLoop_app _ _ _ _ _ _ Hrun).
    simpl. unfold recvIter. unfold firstMessage in Hm.
    destruct (GetResources resp) as [|r0 rs]; [discriminate|].
    rewrite Hc, andb_false_r, Hm. cbn [expectCDS]. rewrite E.
    unfold prepend, handshake. rewrite ?Hc. reflexivity. }
  split; [exact E|]. split; [exact A|].
  intros q e. rewrite A. cbn [events]. intros Hin.
  apply in_app_or in Hin as [Hin|Hin].
  - exact (handshake_no_newADS _ _ _ Hin).
  - apply in_app_or in Hin as [Hin|[Hin|[]]]; [|discriminate].
    exact (recvRun_awaiting_no_eds _ _ _ _ _ Hrun E q e Hin).
Qed.

(** C2, as the code has it.  An attempt that returns reports a response
    exactly when one of its [st.Recv()] calls returned a response,
    whatever became of that response afterwards. *)
Theorem firstRespReceived_iff_received c env k b :
  result (adsCallAttempt c env k) = Returned b ->
  (b = true <->
   exists resp, In (EvRecv (Some resp)) (events (adsCallAttempt c env k))).
Proof.
  intros H. destruct (adsCallAttempt_cases c env k) as [A|[N1 N2]].
  - rewrite A in H |- *. unfold prepend in *. cbn [result events] in *.
    rewrite (recvLoop_reports _ _ _ _ H).
    unfold recvInit. cbn [firstRespReceived]. split.
    + intros [F|[resp Hin]]; [discriminate|].
      exists resp. apply in_or_app. now right.
    + intros [resp Hin]. right. exists resp.
      apply in_app_or in Hin as [Hin|Hin]; [|assumption].
      now apply handshake_no_recv in Hin.
  - split.
    + intros ->. now elim N1.
    + intros [resp Hin]. now apply N2 in Hin.
Qed.

(** C5.  In an attempt of a client with [enableCDS] unset, a first
    response of type [edsType] whose first resource decodes to a
    ClusterLoadAssignment is handed to [newADS]; the attempt goes on
    receiving unless [newADS] itself reports an error. *)
Theorem eds_first_without_cds c env k resp rest p :
  enableCDS c = false ->
  streamErr env = false ->
  sendsOk c (sendErrs env) = true ->
  recvs env = RecvOk resp :: rest ->
  GetTypeUrl resp = edsType ->
  firstMessage resp = Some (ClusterLoadAssignment p) ->
  adsCallAttempt c env k =
    prepend (handshake c ++
             [EvRecv (Some resp);
              EvNewADS (ClusterLoadAssignment p)
                       (fst (newADS c (ClusterLoadAssignment p) k))])
      (if fst (newADS c (ClusterLoadAssignment p) k)
       then mkRun (Returned true) (snd (newADS c (ClusterLoadAssignment p) k)) []
       else recvLoop c
              (mkRecvState false true (snd (newADS c (ClusterLoadAssignment p) k)))
              rest).
Proof.
  intros Hc Hs Hok Hr Ht Hm.
  rewrite (adsCallAttempt_receiving _ _ _ Hs Hok), Hr.
  cbn [recvLoop]. unfold recvIter, recvInit. unfold firstMessage in Hm.
  destruct (GetResources resp) as [|r0 rs]; [discriminate|].
  rewrite Ht, Hm, Hc. change ((edsType =? cdsType)%string) with false.
  cbn [expectCDS sink firstRespReceived andb].
  rewrite dispatch_cases. cbn [expectCDS sink firstRespReceived].
  destruct (fst (newADS c (ClusterLoadAssignment p) k)).
  - unfold prepend; cbn [result sinkAfter events]. now rewrite app_nil_r.
  - rewrite prepend_prepend. reflexivity.
Qed.

(** C8.  In an attempt of a client with [enableCDS] set, when the send of
    the CDS request succeeds and the send of the EDS request fails, the
    attempt returns [false] after these two sends: it has not called
    [st.Recv()]. *)
Theorem eds_send_failure_ends_attempt c env k errs :
  enableCDS c = true ->
  streamErr env = false ->
  sendErrs env = false :: true :: errs ->
  adsCallAttempt c env k =
    mkRun (Returned false) k
          [EvStream false;
           EvSend (newCDSRequest c) false;
           EvSend (newEDSRequest c) true].
Proof.
  intros Hc Hs He. unfold adsCallAttempt, sendEDSAndReceive.
  rewrite Hs, Hc, He. reflexivity.
Qed.

Lemma recvRun_expectCDS c script s s' evs :
  recvRun c s script = Some (s', evs) ->
  expectCDS s' =
    expectCDS s && forallb (fun r => negb (decodesCluster r)) script.
Proof.
  intros H.
  destruct (forallb (fun r => negb (decodesCluster r)) script) eqn:F.
  - rewrite andb_true_r. exact (recvRun_no_cluster _ _ _ _ _ H F).
  - rewrite andb_false_r. apply (recvRun_cluster _ _ _ _ _ H).
    clear H. induction script as [|r script IH]; simpl in *; [discriminate|].
    destruct (decodesCluster r); simpl in *; [reflexivity|exact (IH F)].
Qed.

(** C10.  Let the receive loop pass from the variables [s] through the
    responses of [script] to the variables [s'].  Then [expectCDS] is set
    in [s'] exactly when it was set in [s] and no response of [script]
    decoded to a Cluster: it goes from set to unset, by the decoding of a
    Cluster, and never back.  And once it is unset, a response that
    decodes to a ClusterLoadAssignment passes the check of line 240 and is
    handed to [newADS]. *)
Theorem expectCDS_monotone c s script s' evs :
  recvRun c s script = Some (s', evs) ->
  expectCDS s' =
    expectCDS s && forallb (fun r => negb (decodesCluster r)) script /\
  (expectCDS s' = false ->
   forall resp q,
     (GetTypeUrl resp =? cdsType)%string && negb (enableCDS c) = false ->
     firstMessage resp = Some (ClusterLoadAssignment q) ->
     recvIter c s' (RecvOk resp) =
       dispatch c (mkRecvState false true (sink s')) false resp
                (ClusterLoadAssignment q)).
Proof.
  intros H. split.
  - exact (recvRun_expectCDS _ _ _ _ _ H).
  - intros E resp q Ht Hm. unfold recvIter. unfold firstMessage in Hm.
    destruct (GetResources resp) as [|r0 rs]; [discriminate|].
    rewrite Ht, Hm. cbn [expectCDS]. rewrite E. reflexivity.
Qed.

End AttemptFacts.

(** ** The retry loop *)

Section LoopFacts.

Variable UnmarshalAny : Any -> option Message.
Variable Sink : Type.
Implicit Types (c : client Sink) (k : Sink).

Local Abbreviation adsCallAttempt := (adsCallAttempt UnmarshalAny).
Local Abbreviation attemptAndNotify := (attemptAndNotify UnmarshalAny).
Local Abbreviation loopIter := (loopIter UnmarshalAny).
Local Abbreviation makeADSCallLoop := (makeADSCallLoop UnmarshalAny).
Local Abbreviation makeADSCall := (makeADSCall UnmarshalAny).
Local Abbreviation recvRun := (recvRun UnmarshalAny).

Lemma loopIter_shape c rc dr env k : IterShape c rc dr (loopIter c rc dr env k).
Proof.
  unfold loopIter, attemptAndNotify.
  destruct (ctxDoneAtTop env); [constructor|].
  destruct (adsCallAttempt_events UnmarshalAny Sink c (stream env) k)
    as (e & inner & He & Hi).
  destruct dr.
  - destruct (ctxDoneInBackoff env); [now constructor|].
    destruct (result (adsCallAttempt c (stream env) k)) as [b|];
      cbn [prependStep]; rewrite He.
    + replace (if b then false else true) with (negb b) by now destruct b.
      now apply (ShapeNext c rc true).
    + now apply (ShapeBlocked c rc true).
  - destruct (result (adsCallAttempt c (stream env) k)) as [b|]; rewrite He.
    + replace (if b then false else true) with (negb b) by now destruct b.
      now apply (ShapeNext c rc false).
    + now apply (ShapeBlocked c rc false).
Qed.

(** The checks pass over the calls made inside an attempt. *)
Lemma lostContact_inside inner : forall tr,
  forallb insideAttempt inner = true ->
  lostContactDiscipline InAttempt (inner ++ tr) = lostContactDiscipline InAttempt tr.
Proof.
  induction inner as [|e inner IH]; intros tr H; simpl in *; [reflexivity|].
  apply andb_prop in H as [He Hi].
  destruct e; try discriminate; now apply IH.
Qed.

Lemma retry_inside inner : forall prev tr,
  forallb insideAttempt inner = true ->
  retryDiscipline prev (inner ++ tr) = retryDiscipline prev tr.
Proof.
  induction inner as [|e inner IH]; intros prev tr H; simpl in *; [reflexivity|].
  apply andb_prop in H as [He Hi].
  destruct e; try discriminate; now apply IH.
Qed.


Lemma int_wrap_small z : - 2 ^ 63 <= z < 2 ^ 63 -> int_wrap z = z.
Proof.
  intros H. unfold int_wrap. rewrite Z.mod_small; lia.
Qed.

Lemma lostContact_loop c envs : forall rc dr k,
  lostContactDiscipline Idle (events (makeADSCallLoop c rc dr envs k)) = true.
Proof.
  induction envs as [|env rest IH]; intros rc dr k; simpl; [reflexivity|].
  destruct (loopIter_shape c rc dr env k) as [k'|k' D|k' e inner Hi|k' e inner b Hi].
  - reflexivity.
  - reflexivity.
  - cbn [events]. unfold waitEvents.
    destruct dr; simpl;
      rewrite <- (app_nil_r inner), (lostContact_inside _ _ Hi); reflexivity.
  - cbn [prepend events].
    rewrite <- app_assoc. cbn [app]. rewrite <- app_assoc.
    unfold waitEvents.
    destruct dr; simpl; rewrite (lostContact_inside _ _ Hi); simpl; apply IH.
Qed.

Lemma retry_loop c envs : forall rc dr k,
  0 <= rc ->
  rc + Z.of_nat (List.length envs) < 2 ^ 63 ->
  retryDiscipline rc (events (makeADSCallLoop c rc dr envs k)) = true.
Proof.
  induction envs as [|env rest IH]; intros rc dr k H0 Hn; [reflexivity|].
  cbn [makeADSCallLoop].
  cbn [List.length] in Hn. rewrite Nat2Z.inj_succ in Hn.
  assert (Hw : rc <= afterWait rc dr < rc + 2).
  { unfold afterWait. destruct dr; [|lia].
    rewrite int_wrap_small; lia. }
  destruct (loopIter_shape c rc dr env k) as [k'|k' D|k' e inner Hi|k' e inner b Hi].
  - reflexivity.
  - reflexivity.
  - cbn [events]. unfold waitEvents.
    destruct dr; simpl;
      rewrite <- (app_nil_r inner), (retry_inside _ _ _ Hi); reflexivity.
  - cbn [prepend events].
    rewrite <- app_assoc. cbn [app]. rewrite <- app_assoc.
    assert (R : retryDiscipline rc
                  (EvStream e :: inner ++
                   [EvAttemptEnd b (if b then 0 else afterWait rc dr); EvLoseContact] ++
                   events (makeADSCallLoop c (if b then 0 else afterWait rc dr)
                                           (negb b) rest k')) = true).
    { simpl. rewrite (retry_inside _ _ _ Hi). simpl.
      apply andb_true_intro. split.
      - destruct b; [reflexivity|]. apply Z.leb_le. lia.
      - apply IH; destruct b; lia. }
    unfold waitEvents. destruct dr; exact R.
Qed.



(** C4.  In every run of the loop of fewer than 2^63 iterations (so that
    [retryCount++] does not wrap around), [retryCount] after an attempt
    without a response is not below its value after the attempt before,
    and it is 0 after an attempt with a response. *)
Theorem retryCount_monotone_and_reset c envs k :
  Z.of_nat (List.length envs) < 2 ^ 63 ->
  retryDiscipline 0 (events (makeADSCall c envs k)) = true.
Proof.
  intros H. apply retry_loop; lia.
Qed.

(** C6.  Let an attempt of the loop receive a response without resources
    while it is still receiving.  The attempt returns at that response
    without calling [newADS] on it, and the loop does not return: it calls
    [loseContact] and starts its next iteration, with [retryCount] 0 and
    [doRetry] unset. *)
Theorem empty_response_ends_attempt c rc dr env rest k pre resp tail s evs :
  ctxDoneAtTop env = false ->
  dr && ctxDoneInBackoff env = false ->
  streamErr (stream env) = false ->
  sendsOk c (sendErrs (stream env)) = true ->
  recvs (stream env) = pre ++ RecvOk resp :: tail ->
  recvRun c (recvInit c k) pre = Some (s, evs) ->
  GetResources resp = [] ->
  adsCallAttempt c (stream env) k =
    mkRun (Returned true) (sink s)
          (handshake c ++ evs ++ [EvRecv (Some resp)]) /\
  makeADSCallLoop c rc dr (env :: rest) k =
    prepend (waitEvents c rc dr ++ handshake c ++ evs ++
             [EvRecv (Some resp); EvAttemptEnd true 0; EvLoseContact])
            (makeADSCallLoop c 0 false rest (loseContact c (sink s))).
Proof.
  intros Ht Hb Hs Hok Hr Hrun He.
  assert (A : adsCallAttempt c (stream env) k =
              mkRun (Returned true) (sink s)
                    (handshake c ++ evs ++ [EvRecv (Some resp)])).
  { rewrite (adsCallAttempt_receiving _ _ _ _ _ Hs Hok), Hr.
    rewrite (recvLoop_app _ _ _ _ _ _ _ _ Hrun).
    cbn [recvLoop]. unfold recvIter. rewrite He. reflexivity. }
  split; [exact A|].
  cbn [makeADSCallLoop]. unfold loopIter, attemptAndNotify.
  rewrite Ht, A. cbn [result sinkAfter events].
  unfold waitEvents.
  destruct dr; cbn [andb] in Hb; rewrite ?Hb;
    cbn [prependStep]; unfold prepend; cbn [result sinkAfter events];
    f_equal; rewrite <- ?app_assoc; reflexivity.
Qed.

Lemma replay_app c tr1 : forall k tr2,
  replay c k (tr1 ++ tr2) = replay c (replay c k tr1) tr2.
Proof.
  induction tr1 as [|e tr1 IH]; intros k tr2; [reflexivity|].
  destruct e; cbn; apply IH.
Qed.

(** The receive loop changes the state of the callbacks by its calls of
    [newADS] only. *)
Lemma recvLoop_replay c script : forall s,
  sinkAfter (recvLoop UnmarshalAny c s script) =
  replay c (sink s) (events (recvLoop UnmarshalAny c s script)).
Proof.
  induction script as [|r script IH]; intros s; [reflexivity|].
  cbn [recvLoop]. unfold recvIter.
  destruct r as [resp|]; [|reflexivity].
  destruct (GetResources resp) as [|r0 rs]; [reflexivity|].
  destruct (_ && _); [reflexivity|].
  destruct (UnmarshalAny r0) as [[p|p|u p]|]; [| | |reflexivity];
    cbn [expectCDS firstRespReceived sink];
    try (destruct (expectCDS s); [reflexivity|]);
    rewrite dispatch_cases; cbn [expectCDS firstRespReceived sink];
    (destruct (fst (newADS c _ (sink s))); [reflexivity|]);
    cbn; apply IH.
Qed.

Lemma adsCallAttempt_replay c env k :
  sinkAfter (adsCallAttempt c env k) = replay c k (events (adsCallAttempt c env k)).
Proof.
  unfold adsCallAttempt, sendEDSAndReceive.
  destruct (streamErr env); [reflexivity|].
  destruct (enableCDS c).
  - destruct (sendErrs env) as [|[] [|[] errs]]; try reflexivity.
    cbn. apply (recvLoop_replay c (recvs env) (mkRecvState true false k)).
  - destruct (sendErrs env) as [|[] errs]; try reflexivity.
    cbn. apply (recvLoop_replay c (recvs env) (mkRecvState false false k)).
Qed.

(** An iteration whose attempt returns, with or without a response, hands
    the state of the callbacks to the next iteration through
    [c.loseContact]. *)
Lemma loop_notifies c rc dr env rest k b :
  ctxDoneAtTop env = false ->
  dr && ctxDoneInBackoff env = false ->
  result (adsCallAttempt c (stream env) k) = Returned b ->
  makeADSCallLoop c rc dr (env :: rest) k =
    prepend (waitEvents c rc dr ++
             events (adsCallAttempt c (stream env) k) ++
             [EvAttemptEnd b (if b then 0 else afterWait rc dr); EvLoseContact])
      (makeADSCallLoop c (if b then 0 else afterWait rc dr) (negb b) rest
         (loseContact c (sinkAfter (adsCallAttempt c (stream env) k)))).
Proof.
  intros Ht Hb Ha.
  cbn [makeADSCallLoop]. unfold loopIter, attemptAndNotify.
  rewrite Ht, Ha. unfold waitEvents, afterWait.
  destruct dr; cbn [andb] in Hb; rewrite ?Hb; destruct b; reflexivity.
Qed.

Lemma makeADSCallLoop_replay c envs : forall rc dr k,
  sinkAfter (makeADSCallLoop c rc dr envs k) =
  replay c k (events (makeADSCallLoop c rc dr envs k)).
Proof.
  induction envs as [|env rest IH]; intros rc dr k; [reflexivity|].
  destruct (ctxDoneAtTop env) eqn:Ht.
  { cbn [makeADSCallLoop]. unfold loopIter. now rewrite Ht. }
  destruct (dr && ctxDoneInBackoff env) eqn:Hb.
  { apply andb_prop in Hb as [-> Hb].
    cbn [makeADSCallLoop]. unfold loopIter. now rewrite Ht, Hb. }
  destruct (result (adsCallAttempt c (stream env) k)) as [b|] eqn:Ha.
  - rewrite (loop_notifies _ rc dr _ rest _ _ Ht Hb Ha).
    cbn [prepend sinkAfter events].
    assert (W : replay c k (waitEvents c rc dr) = k)
      by (unfold waitEvents; now destruct dr).
    rewrite IH, !replay_app, W, <- adsCallAttempt_replay. reflexivity.
  - cbn [makeADSCallLoop]. unfold loopIter, attemptAndNotify.
    rewrite Ht, Ha.
    destruct dr; cbn [andb] in Hb; rewrite ?Hb; cbn;
      apply adsCallAttempt_replay.
Qed.

(** C7.  In every run of the loop a call of [c.loseContact] is recorded
    right after each return of an attempt, once, before the next attempt or
    wait, and at no other point; the state of the callbacks at the end of
    the run is the one these calls make: [c.newADS] applied at each recorded
    call of it, [c.loseContact] applied at each recorded call of it, and
    nothing else; and an iteration whose attempt returns, with a response or
    without, starts the next iteration from [c.loseContact] applied to the
    state the attempt left. *)
Theorem loseContact_once_after_every_attempt c envs k :
  lostContactDiscipline Idle (events (makeADSCall c envs k)) = true /\
  sinkAfter (makeADSCall c envs k) =
    replay c k (events (makeADSCall c envs k)) /\
  (forall rc dr env rest k' b,
     ctxDoneAtTop env = false ->
     dr && ctxDoneInBackoff env = false ->
     result (adsCallAttempt c (stream env) k') = Returned b ->
     makeADSCallLoop c rc dr (env :: rest) k' =
       prepend (waitEvents c rc dr ++
                events (adsCallAttempt c (stream env) k') ++
                [EvAttemptEnd b (if b then 0 else afterWait rc dr);
                 EvLoseContact])
         (makeADSCallLoop c (if b then 0 else afterWait rc dr) (negb b) rest
            (loseContact c (sinkAfter (adsCallAttempt c (stream env) k'))))).
Proof.
  split; [apply lostContact_loop|]. split.
  - apply makeADSCallLoop_replay.
  - intros rc dr env rest k' b. apply loop_notifies.
Qed.

End LoopFacts.

(** ** dial against close *)

Module DialCloseFacts.
Import DialClose.

Lemma inv_init : inv init = true.
Proof. reflexivity. Qed.

Ltac split_state s :=
  destruct s as [dp kp cd m cc cn cl];
  destruct dp, kp, cd, cc, m as [[]|], cn as [[|[|?]]|];
  try discriminate.

Lemma inv_stepDial dialOk s s' :
  inv s = true -> stepDial dialOk s = Some s' -> inv s' = true.
Proof.
  intros I. split_state s; destruct dialOk; cbn; intros [= <-]; reflexivity.
Qed.

Lemma inv_stepClose s s' :
  inv s = true -> stepClose s = Some s' -> inv s' = true.
Proof.
  intros I. split_state s; cbn; intros [= <-]; reflexivity.
Qed.

Lemma inv_run dialOk sched : forall s,
  inv s = true -> inv (run dialOk sched s) = true.
Proof.
  induction sched as [|t sched IH]; intros s I; simpl; [exact I|].
  apply IH. destruct (step dialOk t s) as [s'|] eqn:E; [|exact I].
  destruct t; simpl in E.
  - exact (inv_stepDial _ _ _ I E).
  - exact (inv_stepClose _ _ I E).
Qed.

(** C9.  Let [dial] and [close] run as two tasks from the start of both,
    under any schedule of their statements.  At every point the
    connection that [DialContext] made has received at most one [Close];
    when both tasks have finished it has received exactly one, so it is
    not left open; and when [dial] finds the context done at its [select],
    its next two statements close the connection and leave [c.cc] nil. *)
Theorem dial_close_no_leak_no_double_close (dialOk : bool) (sched : list Task) :
  (forall n, conn (run dialOk sched init) = Some n -> (n <= 1)%nat) /\
  (dialPC (run dialOk sched init) = DialDone ->
   closePC (run dialOk sched init) = CloseDone ->
   conn (run dialOk sched init) = Some 1%nat) /\
  (dialPC (run dialOk sched init) = DialSelect ->
   ctxDone (run dialOk sched init) = true ->
   exists s1 s2,
     stepDial dialOk (run dialOk sched init) = Some s1 /\
     stepDial dialOk s1 = Some s2 /\
     dialPC s2 = DialUnlock /\ conn s2 = Some 1%nat /\ c_cc s2 = false).
Proof.
  pose proof (inv_run dialOk sched init inv_init) as I.
  destruct (run dialOk sched init) as [dp kp cd m cc cn cl].
  repeat split.
  - intros n. cbn. intros ->.
    destruct dp, kp, cd, cc, m as [[]|], n as [|[|?]]; try discriminate; lia.
  - cbn. intros -> ->.
    destruct cd, cc, m as [[]|], cn as [[|[|?]]|]; try discriminate; reflexivity.
  - cbn. intros -> ->.
    destruct kp, cc, m as [[]|], cn as [[|[|?]]|]; try discriminate;
      (eexists; eexists; cbn; repeat split; reflexivity).
Qed.

End DialCloseFacts.

(** ** The properties on the concrete client *)

Example listenerResponse_decodes :
  firstMessage sampleUnmarshal listenerResponse = Some (OtherMessage listenerType [x03]).
Proof. reflexivity. Qed.

(** Scenario: CDS then EDS, both handed to the consumer. *)
Example cds_then_eds_dispatched :
  sinkAfter (adsCallAttempt sampleUnmarshal (sampleClient true)
               (goodStream [RecvOk cdsResponse; RecvOk edsResponse; RecvErr]) []) =
  [Cluster [x01]; ClusterLoadAssignment [x02]].
Proof. reflexivity. Qed.

Lemma eds_before_cds_ends_attempt_witness :
  adsCallAttempt sampleUnmarshal (sampleClient true)
    (goodStream [RecvOk listenerResponse; RecvOk edsResponse; RecvOk cdsResponse]) [] =
  mkRun (Returned true) [OtherMessage listenerType [x03]]
        (handshake (sampleClient true) ++
         [EvRecv (Some listenerResponse);
          EvNewADS (OtherMessage listenerType [x03]) false;
          EvRecv (Some edsResponse)]).
Proof.
  exact (proj1 (proj2
    (eds_before_cds_ends_attempt sampleUnmarshal (list Message)
       (sampleClient true)
       (goodStream [RecvOk listenerResponse; RecvOk edsResponse; RecvOk cdsResponse])
       [] [RecvOk listenerResponse] edsResponse [RecvOk cdsResponse]
       (mkRecvState true true [OtherMessage listenerType [x03]])
       [EvRecv (Some listenerResponse);
        EvNewADS (OtherMessage listenerType [x03]) false]
       [x02]
       eq_refl eq_refl eq_refl eq_refl eq_refl eq_refl eq_refl))).
Defined.

(** C2 as stated fails: the only response of this attempt has no resource,
    nothing reaches the consumer, and the attempt reports a response. *)
Lemma reportsOnlyDispatched_counterexample :
  ~ reportsOnlyDispatched
      (adsCallAttempt sampleUnmarshal (sampleClient false)
         (goodStream [RecvOk emptyResponse]) []).
Proof.
  intros H. destruct (H eq_refl) as [m Hin].
  simpl in Hin. intuition discriminate.
Qed.

Lemma firstRespReceived_iff_received_witness :
  true = true <->
  exists resp,
    In (EvRecv (Some resp))
       (events (adsCallAttempt sampleUnmarshal (sampleClient false)
                  (goodStream [RecvOk emptyResponse]) [])).
Proof.
  exact (firstRespReceived_iff_received sampleUnmarshal (list Message)
           (sampleClient false) (goodStream [RecvOk emptyResponse]) [] true
           eq_refl).
Defined.

Lemma eds_first_without_cds_witness :
  adsCallAttempt sampleUnmarshal (sampleClient false)
    (goodStream [RecvOk edsResponse; RecvErr]) [] =
  mkRun (Returned true) [ClusterLoadAssignment [x02]]
        [EvStream false;
         EvSend (newEDSRequest (sampleClient false)) false;
         EvRecv (Some edsResponse);
         EvNewADS (ClusterLoadAssignment [x02]) false;
         EvRecv None].
Proof.
  exact (eds_first_without_cds sampleUnmarshal (list Message)
           (sampleClient false) (goodStream [RecvOk edsResponse; RecvErr]) []
           edsResponse [RecvErr] [x02]
           eq_refl eq_refl eq_refl eq_refl eq_refl eq_refl).
Defined.

Lemma eds_send_failure_ends_attempt_witness :
  adsCallAttempt sampleUnmarshal (sampleClient true)
    (mkStream false [false; true] [RecvOk cdsResponse]) [] =
  mkRun (Returned false) []
        [EvStream false;
         EvSend (newCDSRequest (sampleClient true)) false;
         EvSend (newEDSRequest (sampleClient true)) true].
Proof.
  exact (eds_send_failure_ends_attempt sampleUnmarshal (list Message)
           (sampleClient true) (mkStream false [false; true] [RecvOk cdsResponse])
           [] [] eq_refl eq_refl eq_refl).
Defined.

Lemma expectCDS_monotone_witness :
  recvIter sampleUnmarshal (sampleClient true)
    (mkRecvState false true [Cluster [x01]]) (RecvOk edsResponse) =
  dispatch (sampleClient true) (mkRecvState false true [Cluster [x01]]) false
    edsResponse (ClusterLoadAssignment [x02]).
Proof.
  exact (proj2
    (expectCDS_monotone sampleUnmarshal (list Message) (sampleClient true)
       (recvInit (sampleClient true) []) [RecvOk cdsResponse]
       (mkRecvState false true [Cluster [x01]])
       [EvRecv (Some cdsResponse); EvNewADS (Cluster [x01]) false]
       eq_refl)
    eq_refl edsResponse [x02] eq_refl eq_refl).
Defined.

Lemma closed_once_with_cancel_during_dial :
  DialClose.run true cancelDuringDialToEnd DialClose.init =
  DialClose.mkState DialClose.DialDone DialClose.CloseDone true None false
                    (Some 1%nat) 1%nat.
Proof. reflexivity. Qed.


Lemma retryCount_monotone_and_reset_witness :
  retryDiscipline 0
    (events (makeADSCall sampleUnmarshal (sampleClient true) sampleRun [])) = true.
Proof.
  exact (retryCount_monotone_and_reset sampleUnmarshal (list Message)
           (sampleClient true) sampleRun [] eq_refl).
Defined.

Lemma empty_response_ends_attempt_witness :
  makeADSCallLoop sampleUnmarshal (sampleClient false) 3 true
    [mkIter false false
       (goodStream [RecvOk edsResponse; RecvOk emptyResponse; RecvOk edsResponse])]
    [] =
  mkRun Running [ClusterLoadAssignment [x02]]
    [EvBackoffWait 3 8000000000 false;
     EvStream false;
     EvSend (newEDSRequest (sampleClient false)) false;
     EvRecv (Some edsResponse);
     EvNewADS (ClusterLoadAssignment [x02]) false;
     EvRecv (Some emptyResponse);
     EvAttemptEnd true 0;
     EvLoseContact].
Proof.
  exact (proj2
    (empty_response_ends_attempt sampleUnmarshal (list Message)
       (sampleClient false) 3 true
       (mkIter false false
          (goodStream [RecvOk edsResponse; RecvOk emptyResponse; RecvOk edsResponse]))
       [] [] [RecvOk edsResponse] emptyResponse [RecvOk edsResponse]
       (mkRecvState false true [ClusterLoadAssignment [x02]])
       [EvRecv (Some edsResponse); EvNewADS (ClusterLoadAssignment [x02]) false]
       eq_refl eq_refl eq_refl eq_refl eq_refl eq_refl eq_refl)).
Defined.

Lemma dial_close_no_leak_no_double_close_witness :
  (1 <= 1)%nat /\
  DialClose.conn (DialClose.run true cancelDuringDialToEnd DialClose.init) = Some 1%nat /\
  exists s1 s2,
    DialClose.stepDial true (DialClose.run true cancelDuringDial DialClose.init) = Some s1 /\
    DialClose.stepDial true s1 = Some s2 /\
    DialClose.dialPC s2 = DialClose.DialUnlock /\
    DialClose.conn s2 = Some 1%nat /\ DialClose.c_cc s2 = false.
Proof.
  split; [|split].
  - exact (proj1 (DialCloseFacts.dial_close_no_leak_no_double_close
                    true cancelDuringDialToEnd) 1%nat eq_refl).
  - exact (proj1 (proj2 (DialCloseFacts.dial_close_no_leak_no_double_close
                           true cancelDuringDialToEnd)) eq_refl eq_refl).
  - exact (proj2 (proj2 (DialCloseFacts.dial_close_no_leak_no_double_close
                           true cancelDuringDial)) eq_refl eq_refl).
Defined.

(** ** More on the stream attempt *)

Section AttemptMore.

Variable UnmarshalAny : Any -> option Message.
Variable Sink : Type.
Implicit Types (c : client Sink) (s : RecvState Sink) (k : Sink).

Local Abbreviation recvIter := (recvIter UnmarshalAny).
Local Abbreviation recvLoop := (recvLoop UnmarshalAny).
Local Abbreviation recvRun := (recvRun UnmarshalAny).
Local Abbreviation adsCallAttempt := (adsCallAttempt UnmarshalAny).
Local Abbreviation firstMessage := (firstMessage UnmarshalAny).
Local Abbreviation decoded := (decoded UnmarshalAny).

Lemma dispatched_app tr1 tr2 :
  dispatched (tr1 ++ tr2) = dispatched tr1 ++ dispatched tr2.
Proof.
  induction tr1 as [|e tr1 IH]; simpl; [reflexivity|].
  destruct e; simpl; now rewrite ?IH.
Qed.

Lemma requests_app tr1 tr2 :
  requests (tr1 ++ tr2) = requests tr1 ++ requests tr2.
Proof.
  induction tr1 as [|e tr1 IH]; simpl; [reflexivity|].
  destruct e; simpl; now rewrite ?IH.
Qed.

Lemma dispatched_handshake c : dispatched (handshake c) = [].
Proof. unfold handshake. now destruct (enableCDS c). Qed.

Lemma requests_handshake c : requests (handshake c) = handshakeRequests c.
Proof. unfold handshake, handshakeRequests. now destruct (enableCDS c). Qed.

(** The ways of one pass of the loop on a response: it returns without a
    call of [newADS], or it calls [newADS] on the decoded first resource. *)
Lemma recvIter_ways c s resp :
  recvIter c s (RecvOk resp) = Return true (sink s) [EvRecv (Some resp)] \/
  exists m,
    firstMessage resp = Some m /\
    (GetTypeUrl resp =? cdsType)%string && negb (enableCDS c) = false /\
    (forall p, m = ClusterLoadAssignment p -> expectCDS s = false) /\
    recvIter c s (RecvOk resp) =
      dispatch c (mkRecvState (expectCDS s) true (sink s))
               (match m with Cluster _ => false | _ => expectCDS s end) resp m.
Proof.
  unfold recvIter, firstMessage.
  destruct (GetResources resp) as [|r0 rs]; [now left|].
  destruct (_ && _) eqn:T; [now left|].
  destruct (UnmarshalAny r0) as [[p|p|u p]|]; [| | |now left];
    cbn [expectCDS firstRespReceived sink].
  - right. eexists. repeat split. discriminate.
  - destruct (expectCDS s) eqn:E; [now left|].
    right. eexists. repeat split.
  - right. eexists. repeat split. discriminate.
Qed.

(** A response that passes the checks of lines 221-243 is handed over. *)
Lemma recvIter_accepts c s resp m :
  (GetTypeUrl resp =? cdsType)%string && negb (enableCDS c) = false ->
  firstMessage resp = Some m ->
  (forall p, m = ClusterLoadAssignment p -> expectCDS s = false) ->
  recvIter c s (RecvOk resp) =
    dispatch c (mkRecvState (expectCDS s) true (sink s))
             (match m with Cluster _ => false | _ => expectCDS s end) resp m.
Proof.
  intros T M P. unfold recvIter. unfold firstMessage in M.
  destruct (GetResources resp) as [|r0 rs]; [discriminate|].
  rewrite T, M. cbn [expectCDS firstRespReceived sink].
  destruct m as [p|p|u p]; try reflexivity.
  now rewrite (P p eq_refl).
Qed.

(** A response that fails one of these checks ends the attempt there. *)
Lemma recvIter_rejects c s resp :
  firstMessage resp = None \/
  (GetTypeUrl resp =? cdsType)%string && negb (enableCDS c) = true ->
  recvIter c s (RecvOk resp) = Return true (sink s) [EvRecv (Some resp)].
Proof.
  intros H. unfold recvIter. unfold firstMessage in H.
  destruct (GetResources resp) as [|r0 rs]; [reflexivity|].
  destruct (_ && _); [reflexivity|].
  destruct H as [H|H]; [|discriminate]. now rewrite H.
Qed.

(** An attempt that reaches the receive loop, passes through [pre] and
    returns on the next result of [Recv]. *)
Lemma attempt_returns_at c env k pre r tail s evs b k' evs' :
  streamErr env = false ->
  sendsOk c (sendErrs env) = true ->
  recvs env = pre ++ r :: tail ->
  recvRun c (recvInit c k) pre = Some (s, evs) ->
  recvIter c s r = Return b k' evs' ->
  adsCallAttempt c env k =
    mkRun (Returned b) k' (handshake c ++ evs ++ evs').
Proof.
  intros Hs Hok Hr Hrun Hit.
  rewrite (adsCallAttempt_receiving _ _ _ _ _ Hs Hok), Hr.
  rewrite (recvLoop_app _ _ _ _ _ _ _ _ Hrun).
  cbn [recvLoop]. rewrite Hit. reflexivity.
Qed.

(** What an attempt is when it does not reach the receive loop. *)
Lemma adsCallAttempt_form c env k :
  adsCallAttempt c env k =
    prepend (handshake c) (recvLoop c (recvInit c k) (recvs env)) \/
  exists o evs,
    adsCallAttempt c env k = mkRun o k evs /\
    o <> Returned true /\
    dispatched evs = [] /\
    (exists rest, handshakeRequests c = requests evs ++ rest) /\
    (forall r, ~ In (EvRecv r) evs) /\
    (forall seen, edsAfterCds seen evs = true) /\
    ((2 <= List.length (sendErrs env))%nat -> o = Returned false).
Proof.
  destruct (streamErr env) eqn:Hs.
  - right. unfold adsCallAttempt. rewrite Hs.
    do 2 eexists. split; [reflexivity|]. cbn.
    repeat split; try discriminate; try (now eexists);
      try (intros r H; intuition discriminate).
  - destruct (sendsOk c (sendErrs env)) eqn:Hok.
    + left. now apply adsCallAttempt_receiving.
    + right. revert Hok.
      unfold adsCallAttempt, sendEDSAndReceive, sendsOk, handshakeRequests.
      rewrite Hs. destruct (enableCDS c).
      * destruct (sendErrs env) as [|[] [|[] errs]]; try discriminate;
          intros _; (do 2 eexists); (split; [reflexivity|]); cbn;
          repeat split; try discriminate; try (now eexists); try lia;
          try (intros r H; intuition discriminate).
      * destruct (sendErrs env) as [|[] errs]; try discriminate;
          intros _; (do 2 eexists); (split; [reflexivity|]); cbn;
          repeat split; try discriminate; try (now eexists); try lia;
          try (intros r H; intuition discriminate).
Qed.

Lemma recvLoop_no_send c script : forall s,
  requests (events (recvLoop c s script)) = [].
Proof.
  induction script as [|r script IH]; intros s; simpl; [reflexivity|].
  destruct r as [resp|]; [|reflexivity].
  destruct (recvIter_ways c s resp) as [H|(m & _ & _ & _ & H)]; rewrite H.
  - reflexivity.
  - rewrite dispatch_cases. destruct (fst (newADS c m _)); [reflexivity|].
    cbn. apply IH.
Qed.

Lemma recvLoop_false c script : forall s,
  result (recvLoop c s script) = Returned false ->
  sinkAfter (recvLoop c s script) = sink s /\
  dispatched (events (recvLoop c s script)) = [].
Proof.
  destruct script as [|r script]; intros s H; simpl in *; [discriminate|].
  destruct r as [resp|]; [|now split].
  pose proof (recvIter_response UnmarshalAny Sink c s resp) as P.
  destruct (recvIter c s (RecvOk resp)) as [s1 e1|b1 k1 e1]; destruct P as [P1 P2].
  - cbn in H.
    apply (recvLoop_reports UnmarshalAny Sink) in H.
    assert (F : false = true) by (apply H; now left). discriminate.
  - cbn in H. congruence.
Qed.

Lemma recvLoop_in_order c script : forall s,
  exists rest,
    map decoded script =
    map Some (dispatched (events (recvLoop c s script))) ++ rest.
Proof.
  induction script as [|r script IH]; intros s; simpl; [now exists []|].
  destruct r as [resp|]; [|now eexists].
  destruct (recvIter_ways c s resp) as [H|(m & M & _ & _ & H)]; rewrite H.
  - now eexists.
  - rewrite dispatch_cases. cbn [decoded]. rewrite M.
    destruct (fst (newADS c m _)).
    + now eexists.
    + cbn. destruct (IH (mkRecvState
                           (match m with Cluster _ => false | _ => expectCDS s end)
                           true (snd (newADS c m (sink s))))) as [rest R].
      exists rest. cbn in R. now rewrite R.
Qed.

Lemma recvLoop_returns c script : forall s,
  In RecvErr script ->
  exists b, result (recvLoop c s script) = Returned b.
Proof.
  induction script as [|r script IH]; intros s H; simpl in *; [contradiction|].
  destruct (recvIter c s r) as [s1 e1|b1 k1 e1] eqn:It.
  - destruct H as [->|H]; [discriminate|]. cbn. now apply IH.
  - now eexists.
Qed.

Lemma recvLoop_edsAfterCds c script : forall s seen,
  (expectCDS s = false -> seen = true) ->
  edsAfterCds seen (events (recvLoop c s script)) = true.
Proof.
  induction script as [|r script IH]; intros s seen P; simpl; [reflexivity|].
  destruct r as [resp|]; [|reflexivity].
  destruct (recvIter_ways c s resp) as [H|(m & _ & _ & Q & H)]; rewrite H.
  - reflexivity.
  - rewrite dispatch_cases.
    destruct m as [p|p|u p]; destruct (fst (newADS c _ _)); cbn;
      try rewrite (P (Q _ eq_refl)); cbn; try reflexivity;
      apply IH; cbn; auto.
Qed.

(** One pass on a response and on the response cut down to its first
    resource: the same outcome, up to the response named in the events. *)
Lemma recvIter_firstOnly c s r :
  match recvIter c s r, recvIter c s (firstOnlyResult r) with
  | Return b k e, Return b' k' e' =>
      b = b' /\ k = k' /\ dispatched e = dispatched e'
  | Continue s1 e, Continue s1' e' => s1 = s1' /\ dispatched e = dispatched e'
  | _, _ => False
  end.
Proof.
  destruct r as [resp|]; [|now cbn].
  unfold firstOnlyResult, recvIter, firstOnly. cbn [GetResources GetTypeUrl].
  destruct (GetResources resp) as [|r0 rs]; [now cbn|].
  cbn [firstn].
  destruct (_ && _); [now cbn|].
  destruct (UnmarshalAny r0) as [[p|p|u p]|]; [| | |now cbn];
    cbn [expectCDS firstRespReceived sink];
    try (destruct (expectCDS s); [now cbn|]);
    rewrite !dispatch_cases; cbn [sink firstRespReceived];
    destruct (fst (newADS c _ _)); now cbn.
Qed.

Lemma recvLoop_firstOnly c script : forall s,
  result (recvLoop c s (map firstOnlyResult script)) = result (recvLoop c s script) /\
  sinkAfter (recvLoop c s (map firstOnlyResult script)) =
    sinkAfter (recvLoop c s script) /\
  dispatched (events (recvLoop c s (map firstOnlyResult script))) =
    dispatched (events (recvLoop c s script)).
Proof.
  induction script as [|r script IH]; intros s; simpl; [now repeat split|].
  pose proof (recvIter_firstOnly c s r) as P.
  destruct (recvIter c s r) as [s1 e1|b1 k1 e1];
    destruct (recvIter c s (firstOnlyResult r)) as [s2 e2|b2 k2 e2];
    try contradiction.
  - destruct P as [<- D]. cbn. rewrite !dispatched_app, D.
    destruct (IH s1) as (R1 & R2 & R3). now rewrite R1, R2, R3.
  - destruct P as (<- & <- & D). cbn. now rewrite D.
Qed.

Lemma adsCallAttempt_edsAfterCds c env k seen :
  enableCDS c = true ->
  edsAfterCds seen (events (adsCallAttempt c env k)) = true.
Proof.
  intros Hc. destruct (adsCallAttempt_form c env k) as [A|(o & evs & A & F)].
  - rewrite A. unfold prepend, handshake. cbn [events]. rewrite Hc. cbn.
    apply recvLoop_edsAfterCds. unfold recvInit. cbn. rewrite Hc. discriminate.
  - rewrite A. cbn [events]. now destruct F as (_ & _ & _ & _ & F & _).
Qed.

(** X1.  An attempt that returns without a response has made no call of
    [newADS] and has left the state of the consumer as it found it. *)
Theorem no_response_no_delivery c env k :
  result (adsCallAttempt c env k) = Returned false ->
  sinkAfter (adsCallAttempt c env k) = k /\
  dispatched (events (adsCallAttempt c env k)) = [].
Proof.
  intros H. destruct (adsCallAttempt_form c env k) as [A|(o & evs & A & F)].
  - rewrite A in *. unfold prepend in *. cbn [result sinkAfter events] in *.
    destruct (recvLoop_false _ _ _ H) as [R1 R2].
    now rewrite R1, dispatched_app, R2, dispatched_handshake.
  - rewrite A. cbn. now destruct F as (_ & F & _).
Qed.

(** X2.  A response whose first resource cannot be decoded, or which has no
    resource at all, ends the attempt where it arrives: the attempt reports
    a response and [newADS] is not called on it. *)
Theorem undecodable_response_ends_attempt c env k pre resp tail s evs :
  streamErr env = false ->
  sendsOk c (sendErrs env) = true ->
  recvs env = pre ++ RecvOk resp :: tail ->
  recvRun c (recvInit c k) pre = Some (s, evs) ->
  firstMessage resp = None ->
  adsCallAttempt c env k =
    mkRun (Returned true) (sink s) (handshake c ++ evs ++ [EvRecv (Some resp)]).
Proof.
  intros Hs Hok Hr Hrun Hm.
  apply (attempt_returns_at _ _ _ _ _ _ _ _ _ _ _ Hs Hok Hr Hrun).
  apply recvIter_rejects. now left.
Qed.

(** X3.  In a client with [enableCDS] unset, a response of type [cdsType]
    ends the attempt where it arrives, whatever it carries: it is neither
    decoded nor handed to [newADS]. *)
Theorem cds_response_without_cds_ends_attempt c env k pre resp tail s evs :
  enableCDS c = false ->
  streamErr env = false ->
  sendsOk c (sendErrs env) = true ->
  recvs env = pre ++ RecvOk resp :: tail ->
  recvRun c (recvInit c k) pre = Some (s, evs) ->
  GetTypeUrl resp = cdsType ->
  adsCallAttempt c env k =
    mkRun (Returned true) (sink s) (handshake c ++ evs ++ [EvRecv (Some resp)]).
Proof.
  intros Hc Hs Hok Hr Hrun Ht.
  apply (attempt_returns_at _ _ _ _ _ _ _ _ _ _ _ Hs Hok Hr Hrun).
  apply recvIter_rejects. right. now rewrite Ht, Hc, String.eqb_refl.
Qed.

(** X4.  When [newADS] returns an error for a message, the attempt ends
    there: it reports a response, the message has been handed over once, and
    the consumer is left in the state in which that call left it. *)
Theorem consumer_error_ends_attempt c env k pre resp tail s evs m :
  streamErr env = false ->
  sendsOk c (sendErrs env) = true ->
  recvs env = pre ++ RecvOk resp :: tail ->
  recvRun c (recvInit c k) pre = Some (s, evs) ->
  (GetTypeUrl resp =? cdsType)%string && negb (enableCDS c) = false ->
  firstMessage resp = Some m ->
  (forall p, m = ClusterLoadAssignment p -> expectCDS s = false) ->
  fst (newADS c m (sink s)) = true ->
  adsCallAttempt c env k =
    mkRun (Returned true) (snd (newADS c m (sink s)))
          (handshake c ++ evs ++ [EvRecv (Some resp); EvNewADS m true]).
Proof.
  intros Hs Hok Hr Hrun Ht Hm Hp He.
  apply (attempt_returns_at _ _ _ _ _ _ _ _ _ _ _ Hs Hok Hr Hrun).
  rewrite (recvIter_accepts _ _ _ _ Ht Hm Hp), dispatch_cases.
  cbn [sink firstRespReceived]. now rewrite He.
Qed.

(** X5.  The messages an attempt hands to [newADS] are the decoded first
    resources of the responses of its stream, in the order of arrival, from
    the first response on, none left out and none repeated. *)
Theorem dispatch_in_arrival_order c env k :
  exists rest,
    map decoded (recvs env) =
    map Some (dispatched (events (adsCallAttempt c env k))) ++ rest.
Proof.
  destruct (adsCallAttempt_form c env k) as [A|(o & evs & A & F)].
  - rewrite A. unfold prepend. cbn [events].
    rewrite dispatched_app, dispatched_handshake. apply recvLoop_in_order.
  - rewrite A. cbn [events]. destruct F as (_ & -> & _). now eexists.
Qed.

(** X6.  An attempt on a stream that takes two sends and on which some
    [Recv] fails does return: it is not left waiting in a call. *)
Theorem attempt_returns_when_stream_fails c env k :
  (2 <= List.length (sendErrs env))%nat ->
  In RecvErr (recvs env) ->
  exists b, result (adsCallAttempt c env k) = Returned b.
Proof.
  intros Hn Hin. destruct (adsCallAttempt_form c env k) as [A|(o & evs & A & F)].
  - rewrite A. cbn. now apply recvLoop_returns.
  - rewrite A. cbn. destruct F as (_ & _ & _ & _ & _ & F). rewrite (F Hn).
    now eexists.
Qed.

(** X7.  The requests of an attempt go out in the order of lines 202-211:
    the CDS request, when [enableCDS] is set, then the EDS request, and no
    other; and nothing is received before all of them are sent. *)
Theorem requests_in_order c env k :
  (exists rest,
     handshakeRequests c = requests (events (adsCallAttempt c env k)) ++ rest) /\
  ((exists r, In (EvRecv r) (events (adsCallAttempt c env k))) ->
   requests (events (adsCallAttempt c env k)) = handshakeRequests c).
Proof.
  destruct (adsCallAttempt_form c env k) as [A|(o & evs & A & F)].
  - rewrite A. unfold prepend. cbn [events].
    rewrite requests_app, recvLoop_no_send, requests_handshake, app_nil_r.
    split; [exists []; now rewrite app_nil_r|reflexivity].
  - rewrite A. cbn [events]. destruct F as (_ & _ & F1 & F2 & _).
    split; [exact F1|]. intros [r Hin]. now apply F2 in Hin.
Qed.

(** X8.  Only the first resource of a response is read: an attempt on a
    stream whose responses are cut down to their first resource returns the
    same result, hands the same messages to [newADS] and leaves the
    consumer in the same state. *)
Theorem only_first_resource_read c env k :
  result (adsCallAttempt c (firstOnlyStream env) k) =
    result (adsCallAttempt c env k) /\
  sinkAfter (adsCallAttempt c (firstOnlyStream env) k) =
    sinkAfter (adsCallAttempt c env k) /\
  dispatched (events (adsCallAttempt c (firstOnlyStream env) k)) =
    dispatched (events (adsCallAttempt c env k)).
Proof.
  destruct (recvLoop_firstOnly c (recvs env) (recvInit c k)) as (R1 & R2 & R3).
  unfold adsCallAttempt, sendEDSAndReceive, firstOnlyStream, recvInit in *.
  cbn [streamErr sendErrs recvs].
  destruct (streamErr env); [now repeat split|].
  destruct (enableCDS c).
  - destruct (sendErrs env) as [|[] [|[] errs]]; cbn;
      first [now repeat split | now rewrite R1, R2, R3].
  - destruct (sendErrs env) as [|[] errs]; cbn;
      first [now repeat split | now rewrite R1, R2, R3].
Qed.

(** X9.  A client with [enableCDS] unset tests the type of a response, not
    the type of the message in it: every response that is not of type
    [cdsType] and whose first resource decodes is handed to [newADS],
    a Cluster included. *)
Theorem without_cds_any_decoded_message_is_dispatched
    c env k pre resp tail s evs m :
  enableCDS c = false ->
  streamErr env = false ->
  sendsOk c (sendErrs env) = true ->
  recvs env = pre ++ RecvOk resp :: tail ->
  recvRun c (recvInit c k) pre = Some (s, evs) ->
  (GetTypeUrl resp =? cdsType)%string = false ->
  firstMessage resp = Some m ->
  exists more,
    events (adsCallAttempt c env k) =
      handshake c ++ evs ++
      EvRecv (Some resp) :: EvNewADS m (fst (newADS c m (sink s))) :: more.
Proof.
  intros Hc Hs Hok Hr Hrun Ht Hm.
  assert (E : expectCDS s = false).
  { apply (recvRun_expectCDS_false _ _ _ _ _ _ _ Hrun). exact Hc. }
  rewrite (adsCallAttempt_receiving _ _ _ _ _ Hs Hok), Hr.
  rewrite (recvLoop_app _ _ _ _ _ _ _ _ Hrun).
  cbn [recvLoop].
  rewrite (recvIter_accepts c s resp m); [| now rewrite Ht | exact Hm | auto].
  rewrite dispatch_cases. cbn [sink firstRespReceived].
  destruct (fst (newADS c m (sink s))).
  - exists []. reflexivity.
  - eexists. unfold prepend. cbn [events]. cbn [app]. reflexivity.
Qed.

End AttemptMore.

(** ** More on the retry loop *)

Section LoopMore.

Variable UnmarshalAny : Any -> option Message.
Variable Sink : Type.
Implicit Types (c : client Sink) (k : Sink).

Local Abbreviation adsCallAttempt := (adsCallAttempt UnmarshalAny).
Local Abbreviation attemptAndNotify := (attemptAndNotify UnmarshalAny).
Local Abbreviation loopIter := (loopIter UnmarshalAny).
Local Abbreviation makeADSCallLoop := (makeADSCallLoop UnmarshalAny).
Local Abbreviation makeADSCall := (makeADSCall UnmarshalAny).

Lemma edsAfterCds_attempt_end tr1 b rc tr2 : forall seen,
  edsAfterCds seen (tr1 ++ EvAttemptEnd b rc :: tr2) =
  edsAfterCds seen tr1 && edsAfterCds false tr2.
Proof.
  induction tr1 as [|e tr1 IH]; intros seen; [reflexivity|].
  destruct e as [| | | |m err| |]; cbn; try apply IH.
  destruct m; cbn; rewrite ?IH; try reflexivity.
  now rewrite andb_assoc.
Qed.

Lemma edsAfterCds_loop c envs :
  enableCDS c = true ->
  forall rc dr k seen,
    edsAfterCds seen (events (makeADSCallLoop c rc dr envs k)) = true.
Proof.
  intros Hc. induction envs as [|env rest IH]; intros rc dr k seen;
    [reflexivity|].
  cbn [makeADSCallLoop]. unfold loopIter, attemptAndNotify.
  pose proof (fun seen' =>
    adsCallAttempt_edsAfterCds UnmarshalAny Sink c (stream env) k seen' Hc) as A.
  destruct (ctxDoneAtTop env); [reflexivity|].
  destruct dr; [destruct (ctxDoneInBackoff env); [reflexivity|]|];
    destruct (result (adsCallAttempt c (stream env) k)) as [b|];
    cbn [prependStep prepend events app edsAfterCds];
    rewrite ?A; try reflexivity;
    rewrite <- app_assoc; cbn [app];
    rewrite edsAfterCds_attempt_end, A; cbn; apply IH.
Qed.

(** X10.  In every run of the loop of a client with [enableCDS] set, each
    attempt starts the handshake anew: within an attempt a
    ClusterLoadAssignment reaches [newADS] only after [newADS] has accepted a
    Cluster in that same attempt, whatever earlier attempts received. *)
Theorem eds_after_cds_in_every_attempt c envs k :
  enableCDS c = true ->
  edsAfterCds false (events (makeADSCall c envs k)) = true.
Proof.
  intros Hc. now apply edsAfterCds_loop.
Qed.

Lemma inside_no_wait inner :
  forallb insideAttempt inner = true ->
  forallb (fun e => negb (isWait e)) inner = true.
Proof.
  induction inner as [|e inner IH]; simpl; [reflexivity|].
  intros H. apply andb_prop in H as [He Hi].
  rewrite (IH Hi). now destruct e.
Qed.

Lemma answered_attempt c env k :
  answers c env = true ->
  result (adsCallAttempt c (stream env) k) <> Returned false.
Proof.
  unfold answers. intros H.
  apply andb_prop in H as [H Hr]. apply andb_prop in H as [Hs Hok].
  apply negb_true_iff in Hs.
  rewrite (adsCallAttempt_receiving _ _ _ _ _ Hs Hok).
  destruct (recvs (stream env)) as [|[resp|] rest]; try discriminate.
  cbn [prepend result recvLoop].
  pose proof (recvIter_response UnmarshalAny Sink c (recvInit c k) resp) as P.
  destruct (recvIter UnmarshalAny c (recvInit c k) (RecvOk resp))
    as [s1 e1|b1 k1 e1]; destruct P as [P1 P2]; cbn.
  - intros F. apply (recvLoop_reports UnmarshalAny Sink) in F.
    assert (X : false = true) by (apply F; now left). discriminate.
  - congruence.
Qed.

Lemma no_wait_loop c envs : forall rc k,
  forallb (answers c) envs = true ->
  forallb (fun e => negb (isWait e))
          (events (makeADSCallLoop c rc false envs k)) = true.
Proof.
  induction envs as [|env rest IH]; intros rc k H; [reflexivity|].
  cbn [forallb] in H. apply andb_prop in H as [Ha Hrest].
  cbn [makeADSCallLoop]. unfold loopIter, attemptAndNotify.
  destruct (ctxDoneAtTop env); [reflexivity|].
  pose proof (answered_attempt c env k Ha) as N.
  destruct (adsCallAttempt_events UnmarshalAny Sink c (stream env) k)
    as (e & inner & He & Hi).
  apply inside_no_wait in Hi.
  destruct (result (adsCallAttempt c (stream env) k)) as [[]|];
    try (now elim N); cbn [prepend events]; rewrite He.
  - rewrite <- app_assoc, !forallb_app. cbn. rewrite Hi. cbn.
    now apply IH.
  - cbn. exact Hi.
Qed.

(** X11.  While every stream opens, takes the requests and answers with a
    response, the loop never waits: attempt follows attempt without a
    backoff, whatever becomes of the responses. *)
Theorem no_backoff_while_server_answers c envs k :
  forallb (answers c) envs = true ->
  forallb (fun e => negb (isWait e)) (events (makeADSCall c envs k)) = true.
Proof.
  intros H. now apply no_wait_loop.
Qed.

Lemma not_cancelled_loop c envs : forall rc dr k,
  forallb notCancelled envs = true ->
  result (makeADSCallLoop c rc dr envs k) = Running.
Proof.
  induction envs as [|env rest IH]; intros rc dr k H; [reflexivity|].
  cbn [forallb] in H. apply andb_prop in H as [Hn Hrest].
  unfold notCancelled in Hn. apply andb_prop in Hn as [H1 H2].
  apply negb_true_iff in H1, H2.
  cbn [makeADSCallLoop]. unfold loopIter, attemptAndNotify. rewrite H1, H2.
  destruct dr; destruct (result (adsCallAttempt c (stream env) k));
    cbn; try reflexivity; now apply IH.
Qed.

(** X12.  The loop returns only on cancellation: as long as neither
    [select] finds the context done, no result of an attempt, no error of
    the stream or of the consumer makes [makeADSCall] return. *)
Theorem only_cancellation_ends_loop c envs k :
  forallb notCancelled envs = true ->
  result (makeADSCall c envs k) = Running.
Proof.
  intros H. now apply not_cancelled_loop.
Qed.

Lemma escalates_inside inner : forall next tr,
  forallb insideAttempt inner = true ->
  backoffEscalates next (inner ++ tr) = backoffEscalates next tr.
Proof.
  induction inner as [|e inner IH]; intros next tr H; simpl in *; [reflexivity|].
  apply andb_prop in H as [He Hi].
  destruct e; try discriminate; now apply IH.
Qed.

Lemma escalates_loop c envs : forall rc dr k,
  0 <= rc ->
  rc + Z.of_nat (List.length envs) < 2 ^ 63 ->
  backoffEscalates rc (events (makeADSCallLoop c rc dr envs k)) = true.
Proof.
  induction envs as [|env rest IH]; intros rc dr k H0 Hn; [reflexivity|].
  cbn [makeADSCallLoop].
  cbn [List.length] in Hn. rewrite Nat2Z.inj_succ in Hn.
  assert (Hw : afterWait rc dr = if dr then rc + 1 else rc).
  { unfold afterWait. destruct dr; [|reflexivity]. apply int_wrap_small. lia. }
  destruct (loopIter_shape UnmarshalAny Sink c rc dr env k)
    as [k'|k' D|k' e inner Hi|k' e inner b Hi].
  - reflexivity.
  - cbn. now rewrite Z.eqb_refl.
  - cbn [events]. unfold waitEvents.
    destruct dr; cbn; rewrite ?Z.eqb_refl; cbn;
      rewrite <- (app_nil_r inner), (escalates_inside _ _ _ Hi); reflexivity.
  - cbn [prepend events].
    rewrite <- app_assoc. cbn [app]. rewrite <- app_assoc.
    rewrite Hw. unfold waitEvents.
    destruct dr; cbn; rewrite ?Z.eqb_refl; cbn;
      rewrite (escalates_inside _ _ _ Hi); destruct b; cbn;
      apply IH; lia.
Qed.

(** X13.  In every run of the loop of fewer than 2^63 iterations the waits
    count up: the first wait after an attempt with a response, and the first
    of the run, is for retry count 0, and each further wait is for one more
    than the wait before it. *)
Theorem backoff_counts_consecutive_failures c envs k :
  Z.of_nat (List.length envs) < 2 ^ 63 ->
  backoffEscalates 0 (events (makeADSCall c envs k)) = true.
Proof.
  intros H. apply escalates_loop; lia.
Qed.

End LoopMore.

(** ** More on dial against close *)

Module DialCloseMore.
Import DialClose.

Lemma run_app dialOk sched1 : forall sched2 s,
  run dialOk (sched1 ++ sched2) s = run dialOk sched2 (run dialOk sched1 s).
Proof.
  induction sched1 as [|t sched1 IH]; intros sched2 s; simpl; [reflexivity|].
  apply IH.
Qed.

Lemma reachable_inv dialOk sched : inv (run dialOk sched init) = true.
Proof. apply DialCloseFacts.inv_run. reflexivity. Qed.

Ltac split_reachable I :=
  match type of I with
  | inv ?s = true =>
      destruct s as [dp kp cd m cc cn cl];
      destruct dp, kp, cd, cc, m as [[]|], cn as [[|[|?]]|];
      try discriminate I
  end.

(** X14.  Under every schedule the two critical sections exclude each
    other, and the mutex is held exactly by the task that is inside its
    critical section (lines 115-123 of [dial], lines 80-84 of [close]). *)
Theorem critical_sections_exclusive (dialOk : bool) (sched : list Task) :
  inCriticalDial (dialPC (run dialOk sched init)) &&
  inCriticalClose (closePC (run dialOk sched init)) = false /\
  eqTask (mu (run dialOk sched init)) (Some DialTask) =
    inCriticalDial (dialPC (run dialOk sched init)) /\
  eqTask (mu (run dialOk sched init)) (Some CloseTask) =
    inCriticalClose (closePC (run dialOk sched init)).
Proof.
  pose proof (reachable_inv dialOk sched) as I.
  split_reachable I; now cbn.
Qed.

(** X15.  The two calls do not deadlock: in every state a schedule can
    reach, unless both calls have returned or [Fatalf] has ended the
    process, one of the two tasks can execute its next statement. *)
Theorem dial_close_progress (dialOk : bool) (sched : list Task) :
  fatal (run dialOk sched init) = false ->
  bothDone (run dialOk sched init) = false ->
  exists t s', step dialOk t (run dialOk sched init) = Some s'.
Proof.
  pose proof (reachable_inv dialOk sched) as I.
  split_reachable I; cbn; intros F B; try discriminate;
    first [ exists DialTask; cbn; destruct dialOk; eexists; reflexivity
          | exists CloseTask; cbn; eexists; reflexivity ].
Qed.

Lemma failed_dial_step t s s' :
  withoutConn s = true -> step false t s = Some s' -> withoutConn s' = true.
Proof.
  destruct s as [dp kp cd m cc cn cl]. unfold withoutConn. cbn.
  destruct t; cbn.
  - destruct dp; cbn; intros H; try discriminate H; intros [= <-]; reflexivity.
  - destruct dp; cbn; intros H; try discriminate H;
      destruct kp, m, cc; cbn; intros [= <-]; reflexivity.
Qed.

Lemma failed_dial_run sched : forall s,
  withoutConn s = true -> withoutConn (run false sched s) = true.
Proof.
  induction sched as [|t sched IH]; intros s H; simpl; [exact H|].
  apply IH. destruct (step false t s) as [s'|] eqn:E; [|exact H].
  exact (failed_dial_step _ _ _ H E).
Qed.

Lemma good_dial_step t s s' :
  fatal s = false -> step true t s = Some s' -> fatal s' = false.
Proof.
  destruct s as [dp kp cd m cc cn cl]. unfold fatal. cbn.
  destruct t; cbn.
  - destruct dp, m, cd; cbn; intros H; try discriminate H; intros [= <-];
      reflexivity.
  - destruct dp; cbn; intros H; try discriminate H;
      destruct kp, m, cc; cbn; intros [= <-]; reflexivity.
Qed.

Lemma good_dial_run sched : forall s,
  fatal s = false -> fatal (run true sched s) = false.
Proof.
  induction sched as [|t sched IH]; intros s H; simpl; [exact H|].
  apply IH. destruct (step true t s) as [s'|] eqn:E; [|exact H].
  exact (good_dial_step _ _ _ H E).
Qed.

(** X16.  From every state a schedule can reach, letting [close] run, then
    [dial], then [close] again brings both calls to their return when
    [DialContext] succeeds; when it fails the process ends in [Fatalf]. *)
Theorem dial_close_complete (dialOk : bool) (sched : list Task) :
  bothDone (run dialOk (sched ++ runToEnd) init) = dialOk /\
  fatal (run dialOk (sched ++ runToEnd) init) = negb dialOk.
Proof.
  rewrite run_app.
  pose proof (reachable_inv dialOk sched) as I.
  destruct dialOk.
  - pose proof (good_dial_run sched init eq_refl) as W.
    split_reachable I; try discriminate W; split; vm_compute; reflexivity.
  - pose proof (failed_dial_run sched init eq_refl) as W.
    split_reachable I; try discriminate W; split; vm_compute; reflexivity.
Qed.

Lemma cleanupOnce_step dialOk t s s' :
  cleanupOnce s = true -> step dialOk t s = Some s' -> cleanupOnce s' = true.
Proof.
  destruct s as [dp kp cd m cc cn cl]. unfold cleanupOnce. cbn.
  destruct t; cbn.
  - destruct dp, dialOk, m; cbn; intros H [= <-]; exact H.
  - destruct dp, kp, m, cc; cbn; intros H [= <-]; cbn; try exact H;
      apply Nat.eqb_eq in H; now rewrite H.
Qed.

Lemma cleanupOnce_run dialOk sched : forall s,
  cleanupOnce s = true -> cleanupOnce (run dialOk sched s) = true.
Proof.
  induction sched as [|t sched IH]; intros s H; simpl; [exact H|].
  apply IH. destruct (step dialOk t s) as [s'|] eqn:E; [|exact H].
  exact (cleanupOnce_step _ _ _ _ H E).
Qed.

(** X17.  Under every schedule [c.cleanup()] has been called exactly once
    when [close] has returned, and not at all before. *)
Theorem cleanup_called_once (dialOk : bool) (sched : list Task) :
  cleanups (run dialOk sched init) =
    match closePC (run dialOk sched init) with
    | CloseDone => 1%nat
    | _ => 0%nat
    end.
Proof.
  apply Nat.eqb_eq. apply (cleanupOnce_run dialOk sched init). reflexivity.
Qed.


(** X19.  Under every schedule, while [c.cc] is set and [close] has not
    yet closed it (it is not past line 82), the connection it holds is
    open; once [close] is past line 82 it has been closed once. *)
Theorem stored_connection_open_until_closed (dialOk : bool) (sched : list Task) :
  c_cc (run dialOk sched init) = true ->
  conn (run dialOk sched init) =
    Some (if pastCloseTest (closePC (run dialOk sched init)) then 1 else 0)%nat.
Proof.
  pose proof (reachable_inv dialOk sched) as I.
  split_reachable I; cbn; intros H; try discriminate; reflexivity.
Qed.

End DialCloseMore.

(** ** The dial options *)

Section DialOptionsFacts.

Variable Creds : Type.
Variable DialerFn : Type.
Variable OverrideServerName : Creds -> string -> option Creds.
Variable PickFirstBalancerName : string.

Local Abbreviation dialOptions :=
  (dialOptions OverrideServerName PickFirstBalancerName).

(** X20.  The options [dial] passes to [DialContext] hold exactly one
    transport-security option and it comes first: the credentials with the
    server name overridden when [DialCreds] is set and the override
    succeeds, [WithInsecure] otherwise, so a failed override is dialled
    without transport security.  They hold exactly one balancer option,
    pick-first. *)
Theorem dial_options_security_and_balancer
    (opts : BuildOptions Creds DialerFn) (name : string) (channelzIsOn : bool) :
  exists tail,
    dialOptions opts name channelzIsOn =
      match DialCreds opts with
      | Some creds =>
          match OverrideServerName creds name with
          | Some creds' => WithTransportCredentials creds'
          | None => WithInsecure
          end
      | None => WithInsecure
      end :: tail /\
    forallb (fun o => negb (isSecurity o)) tail = true /\
    filter isBalancer (dialOptions opts name channelzIsOn) =
      [WithBalancerName PickFirstBalancerName].
Proof.
  unfold dialOptions.
  destruct (DialCreds opts) as [creds|];
    [destruct (OverrideServerName creds name) as [creds'|]|];
    destruct (Dialer opts) as [d|]; destruct channelzIsOn;
    eexists; cbn; repeat split; reflexivity.
Qed.

End DialOptionsFacts.

(** ** The further properties on the concrete inputs *)

Lemma no_response_no_delivery_witness :
  sinkAfter (adsCallAttempt sampleUnmarshal (sampleClient true)
               (mkStream false [false; true] []) []) = [] /\
  dispatched (events (adsCallAttempt sampleUnmarshal (sampleClient true)
                        (mkStream false [false; true] []) [])) = [].
Proof.
  exact (no_response_no_delivery sampleUnmarshal (list Message)
           (sampleClient true) (mkStream false [false; true] []) [] eq_refl).
Defined.

Lemma undecodable_response_ends_attempt_witness :
  adsCallAttempt sampleUnmarshal (sampleClient false)
    (goodStream [RecvOk edsResponse; RecvOk brokenResponse]) [] =
  mkRun (Returned true) [ClusterLoadAssignment [x02]]
        (handshake (sampleClient false) ++
         [EvRecv (Some edsResponse);
          EvNewADS (ClusterLoadAssignment [x02]) false] ++
         [EvRecv (Some brokenResponse)]).
Proof.
  exact (undecodable_response_ends_attempt sampleUnmarshal (list Message)
           (sampleClient false)
           (goodStream [RecvOk edsResponse; RecvOk brokenResponse]) []
           [RecvOk edsResponse] brokenResponse []
           (mkRecvState false true [ClusterLoadAssignment [x02]])
           [EvRecv (Some edsResponse);
            EvNewADS (ClusterLoadAssignment [x02]) false]
           eq_refl eq_refl eq_refl eq_refl eq_refl).
Defined.

Lemma cds_response_without_cds_ends_attempt_witness :
  adsCallAttempt sampleUnmarshal (sampleClient false)
    (goodStream [RecvOk cdsResponse; RecvOk edsResponse]) [] =
  mkRun (Returned true) []
        (handshake (sampleClient false) ++ [] ++ [EvRecv (Some cdsResponse)]).
Proof.
  exact (cds_response_without_cds_ends_attempt sampleUnmarshal (list Message)
           (sampleClient false)
           (goodStream [RecvOk cdsResponse; RecvOk edsResponse]) []
           [] cdsResponse [RecvOk edsResponse]
           (recvInit (sampleClient false) []) []
           eq_refl eq_refl eq_refl eq_refl eq_refl eq_refl).
Defined.

Lemma consumer_error_ends_attempt_witness :
  adsCallAttempt sampleUnmarshal (sampleClient false)
    (goodStream [RecvOk refusedResponse; RecvOk edsResponse]) [] =
  mkRun (Returned true) []
        (handshake (sampleClient false) ++ [] ++
         [EvRecv (Some refusedResponse);
          EvNewADS (ClusterLoadAssignment []) true]).
Proof.
  exact (consumer_error_ends_attempt sampleUnmarshal (list Message)
           (sampleClient false)
           (goodStream [RecvOk refusedResponse; RecvOk edsResponse]) []
           [] refusedResponse [RecvOk edsResponse]
           (recvInit (sampleClient false) []) []
           (ClusterLoadAssignment [])
           eq_refl eq_refl eq_refl eq_refl eq_refl eq_refl
           (fun _ _ => eq_refl) eq_refl).
Defined.

Lemma attempt_returns_when_stream_fails_witness :
  exists b,
    result (adsCallAttempt sampleUnmarshal (sampleClient true)
              (goodStream [RecvOk cdsResponse; RecvErr]) []) = Returned b.
Proof.
  exact (attempt_returns_when_stream_fails sampleUnmarshal (list Message)
           (sampleClient true) (goodStream [RecvOk cdsResponse; RecvErr]) []
           (le_n 2) (or_intror (or_introl eq_refl))).
Defined.

Lemma requests_in_order_witness :
  requests (events (adsCallAttempt sampleUnmarshal (sampleClient true)
                      (goodStream [RecvErr]) [])) =
  [newCDSRequest (sampleClient true); newEDSRequest (sampleClient true)].
Proof.
  exact (proj2 (requests_in_order sampleUnmarshal (list Message)
                  (sampleClient true) (goodStream [RecvErr]) [])
               (ex_intro _ None
                  (or_intror (or_intror (or_intror (or_introl eq_refl)))))).
Defined.

Lemma without_cds_any_decoded_message_is_dispatched_witness :
  exists more,
    events (adsCallAttempt sampleUnmarshal (sampleClient false)
              (goodStream [RecvOk mislabelledResponse]) []) =
    handshake (sampleClient false) ++ [] ++
    EvRecv (Some mislabelledResponse) :: EvNewADS (Cluster [x05]) false :: more.
Proof.
  exact (without_cds_any_decoded_message_is_dispatched sampleUnmarshal
           (list Message) (sampleClient false)
           (goodStream [RecvOk mislabelledResponse]) []
           [] mislabelledResponse [] (recvInit (sampleClient false) []) []
           (Cluster [x05])
           eq_refl eq_refl eq_refl eq_refl eq_refl eq_refl eq_refl).
Defined.

Lemma eds_after_cds_in_every_attempt_witness :
  edsAfterCds false
    (events (makeADSCall sampleUnmarshal (sampleClient true) sampleRun [])) = true.
Proof.
  exact (eds_after_cds_in_every_attempt sampleUnmarshal (list Message)
           (sampleClient true) sampleRun [] eq_refl).
Defined.

Lemma no_backoff_while_server_answers_witness :
  forallb (fun e => negb (isWait e))
    (events (makeADSCall sampleUnmarshal (sampleClient false) answeringRun [])) = true.
Proof.
  exact (no_backoff_while_server_answers sampleUnmarshal (list Message)
           (sampleClient false) answeringRun [] eq_refl).
Defined.

Lemma only_cancellation_ends_loop_witness :
  result (makeADSCall sampleUnmarshal (sampleClient true) sampleRun []) = Running.
Proof.
  exact (only_cancellation_ends_loop sampleUnmarshal (list Message)
           (sampleClient true) sampleRun [] eq_refl).
Defined.

Lemma backoff_counts_consecutive_failures_witness :
  backoffEscalates 0
    (events (makeADSCall sampleUnmarshal (sampleClient true) sampleRun [])) = true.
Proof.
  exact (backoff_counts_consecutive_failures sampleUnmarshal (list Message)
           (sampleClient true) sampleRun [] eq_refl).
Defined.

Lemma dial_close_progress_witness :
  exists t s',
    DialClose.step true t (DialClose.run true cancelDuringDial DialClose.init) =
    Some s'.
Proof.
  exact (DialCloseMore.dial_close_progress true cancelDuringDial eq_refl eq_refl).
Defined.


Lemma stored_connection_open_until_closed_witness :
  DialClose.conn (DialClose.run true dialFirst DialClose.init) = Some 0%nat.
Proof.
  exact (DialCloseMore.stored_connection_open_until_closed true dialFirst eq_refl).
Defined.

(** After an attempt without a response, and after one with a response,
    the callbacks' state carries the mark of [loseContact]. *)
Lemma loseContact_once_after_every_attempt_witness :
  makeADSCallLoop sampleUnmarshal (markingClient false) 0 false
    [deadStream; mkIter false false (goodStream [RecvOk edsResponse; RecvErr])] [] =
  mkRun Running
    [lostContactMark; ClusterLoadAssignment [x02]; lostContactMark]
    [EvStream true; EvAttemptEnd false 0; EvLoseContact;
     EvBackoffWait 0 1000000000 false;
     EvStream false; EvSend (newEDSRequest (markingClient false)) false;
     EvRecv (Some edsResponse); EvNewADS (ClusterLoadAssignment [x02]) false;
     EvRecv None; EvAttemptEnd true 0; EvLoseContact].
Proof.
  exact (proj2 (proj2
    (loseContact_once_after_every_attempt sampleUnmarshal (list Message)
       (markingClient false) [] []))
    0 false deadStream
    [mkIter false false (goodStream [RecvOk edsResponse; RecvErr])] [] false
    eq_refl eq_refl eq_refl).
Defined.
